(** * broker/util/variant.hh: a tagged union with visitation

    A shallow embedding of [broker::util::variant], of its visitation
    framework and of [detail::recursive_wrapper], and the properties the
    specification states about them.

    Layout of the development:
    - outcomes of C++ evaluations and the state-and-failure monad;
    - [detail::recursive_wrapper] over an explicit heap ([OnHeap]);
    - the universe of alternative types and the operations they supply;
    - the variant: storage, dispatch, lifecycle, comparison, accessors,
      n-ary visitation, hashing, construction from a value;
    - the ordering mixin of [broker/util/operators.hh];
    - a concrete instantiation over Bool, Int, Text and a boxed Node;
    - the theorems. *)

From Stdlib Require Import ZArith List Bool Lia.
From stdpp Require Import strings gmap.

Set Implicit Arguments.

(** ** Outcomes

    What evaluating a C++ expression can lead to: a value, an exception in
    flight, a failed [assert] (the process aborts), or undefined
    behaviour. *)

Inductive outcome (E A : Type) : Type :=
| Ret (a : A)
| Throw (e : E)
| AssertFail
| Undefined.

Arguments Ret {E A} a.
Arguments Throw {E A} e.
Arguments AssertFail {E A}.
Arguments Undefined {E A}.

Definition obind {E A B} (m : outcome E A) (k : A -> outcome E B)
  : outcome E B :=
  match m with
  | Ret a => k a
  | Throw e => Throw e
  | AssertFail => AssertFail
  | Undefined => Undefined
  end.

Definition returns {E A} (m : outcome E A) : bool :=
  match m with Ret _ => true | _ => false end.

(** ** State and failure

    A computation that runs against an object of type [S] held by
    reference.  The state is returned in every case: when an exception
    leaves the computation, the object is in whatever state the
    computation had brought it to. *)

Definition M (E S A : Type) : Type := S -> outcome E A * S.

Definition mpure {E S A} (a : A) : M E S A := fun s => (Ret a, s).

Definition mseq {E S A B} (m : M E S A) (k : A -> M E S B) : M E S B :=
  fun s =>
    match m s with
    | (Ret a, s') => k a s'
    | (Throw e, s') => (Throw e, s')
    | (AssertFail, s') => (AssertFail, s')
    | (Undefined, s') => (Undefined, s')
    end.

Definition lift {E S A} (o : outcome E A) : M E S A := fun s => (o, s).

Definition get_state {E S} : M E S S := fun s => (Ret s, s).

Definition put_state {E S} (s : S) : M E S unit := fun _ => (Ret tt, s).

Declare Scope cxx_scope.
Delimit Scope cxx_scope with cxx.
Notation "'let*' x := m 'in' k" := (mseq m (fun x => k))
  (at level 10, x pattern, m at level 100, k at level 200) : cxx_scope.
Notation "m ;;; k" := (mseq m (fun _ => k))
  (at level 100, k at level 200, right associativity) : cxx_scope.
Notation "'let?' x := m 'in' k" := (obind m (fun x => k))
  (at level 10, x pattern, m at level 100, k at level 200) : cxx_scope.
Open Scope cxx_scope.

(** ** [detail::recursive_wrapper] over an explicit heap

    [std::unique_ptr<T> item] is a nullable location; the heap maps the
    allocated locations to the [T] stored there.  [T]'s own copy
    constructor and copy assignment are parameters: both may throw. *)

Module OnHeap.

Abbreviation loc := positive.

Section recursive_wrapper.
Context {E T : Type}.
Context (T_copy : T -> outcome E T).
Context (T_assign : T -> M E T unit).
Context (T_eq : T -> T -> bool).

Local Abbreviation heap := (gmap positive T).

Record recursive_wrapper : Type := Wrapper { item : option loc }.

(** [new T(x)], once the new [T] has been computed. *)
Definition new (x : T) : M E heap loc :=
  fun h => let l := fresh (dom h) in (Ret l, <[l := x]> h).

(** [*item]: a null pointer or a location that is not allocated is
    undefined behaviour. *)
Definition deref (p : option loc) : M E heap T :=
  fun h =>
    match p with
    | Some l =>
        match h !! l with
        | Some x => (Ret x, h)
        | None => (Undefined, h)
        end
    | None => (Undefined, h)
    end.

(** [const T& get() const { return *item; }] *)
Definition get (w : recursive_wrapper) : M E heap T := deref (item w).

(** [recursive_wrapper(const U& u) : item(new T(u))], for [U = T]. *)
Definition value_ctor (u : T) : M E heap recursive_wrapper :=
  let* y := lift (T_copy u) in
  let* l := new y in
  mpure (Wrapper (Some l)).

(** [recursive_wrapper(const recursive_wrapper& other)
      : item(new T(other.get()))] *)
Definition copy_ctor (other : recursive_wrapper)
  : M E heap recursive_wrapper :=
  let* x := get other in
  let* y := lift (T_copy x) in
  let* l := new y in
  mpure (Wrapper (Some l)).

(** [recursive_wrapper(recursive_wrapper&& other) noexcept
      : item(other.item.release())]: the new wrapper and the donor. *)
Definition move_ctor (other : recursive_wrapper)
  : recursive_wrapper * recursive_wrapper :=
  (Wrapper (item other), Wrapper None).

(** [template <typename U> void assign(U&& u) { *item = std::forward<U>(u); }]
    with [u] an lvalue: [T]'s copy assignment runs on the pointee. *)
Definition assign (self : recursive_wrapper) (u : T) : M E heap unit :=
  fun h =>
    match item self with
    | Some l =>
        match h !! l with
        | Some old =>
            let '(r, new_) := T_assign u old in (r, <[l := new_]> h)
        | None => (Undefined, h)
        end
    | None => (Undefined, h)
    end.

(** [recursive_wrapper& operator=(const recursive_wrapper& rhs)
      { assign(rhs.get()); return *this; }] *)
Definition copy_assign (self rhs : recursive_wrapper)
  : M E heap recursive_wrapper :=
  let* x := get rhs in
  assign self x ;;;
  mpure self.

(** [recursive_wrapper& operator=(const T& rhs)
      { assign(rhs); return *this; }] *)
Definition value_assign (self : recursive_wrapper) (rhs : T)
  : M E heap recursive_wrapper :=
  assign self rhs ;;;
  mpure self.

(** A client mutating the wrapped value through the reference that
    [T& get()] returns; [f] is the effect of the mutation on the [T]. *)
Definition mutate (w : recursive_wrapper) (f : T -> T) : M E heap unit :=
  fun h =>
    match item w with
    | Some l =>
        match h !! l with
        | Some x => (Ret tt, <[l := f x]> h)
        | None => (Undefined, h)
        end
    | None => (Undefined, h)
    end.

(** [friend bool operator==(x, y) { return *x.item == *y.item; }] *)
Definition eq (x y : recursive_wrapper) : M E heap bool :=
  let* a := get x in
  let* b := get y in
  mpure (T_eq a b).

(** The allocation a wrapper owns was made by this very operation: it
    was not allocated in the heap [h] the operation started from. *)
Definition owns_fresh (h : heap) (w : recursive_wrapper) : Prop :=
  exists l, item w = Some l /\ h !! l = None.

End recursive_wrapper.
End OnHeap.

(** ** The universe of alternative types

    A variant is instantiated with C++ types.  [base] names the types that
    are not recursive wrappers, [bden b] is the set of values of such a
    type and [exn] the set of exception objects.  Overloads and templates
    select on types, so types are codes with decidable equality. *)

Class Universe : Type := {
  base : Type;
  base_eq_dec :: EqDecision base;
  bden : base -> Type;
  exn : Type;
}.

(** Ranks of the implicit conversion sequences between two different
    types, best first: [ExactMatch] for the sequences of that rank other
    than the identity (qualification adjustments and the like),
    [UserDefined] for sequences through a converting constructor. *)
Inductive conv_rank : Type :=
| ExactMatch | Promotion | Conversion | UserDefined.

Definition rank_index (r : conv_rank) : nat :=
  match r with
  | ExactMatch => 0
  | Promotion => 1
  | Conversion => 2
  | UserDefined => 3
  end.

(** What the variant takes from each alternative type that is not a
    wrapper: its constructors and assignments, comparison, [std::hash],
    and the implicit conversions between such types. *)
Class Alternatives `{Universe} : Type := {
  (** [T()] *)
  plain_default : forall b, outcome exn (bden b);
  (** [T(const T&)]: the copy, or an exception *)
  plain_copy : forall b, bden b -> outcome exn (bden b);
  (** [T(T&&) noexcept]: the new object and the donor afterwards *)
  plain_move : forall b, bden b -> bden b * bden b;
  (** [T& operator=(const T& rhs)], acting on [*this] *)
  plain_copy_assign : forall b, bden b -> M exn (bden b) unit;
  (** [T& operator=(T&& rhs) noexcept]: [*this] and the donor afterwards *)
  plain_move_assign : forall b, bden b -> bden b -> bden b * bden b;
  (** [operator==], [operator<] and [std::hash<T>] *)
  plain_eq : forall b, bden b -> bden b -> bool;
  plain_lt : forall b, bden b -> bden b -> bool;
  plain_hash : forall b, bden b -> N;
  (** rank of the implicit conversion from an argument of type [a] to a
      parameter of type [b], if there is one, and the conversion itself *)
  plain_conversion : base -> base -> option conv_rank;
  plain_convert : forall a b, bden a -> outcome exn (bden b);
}.

(** [detail::recursive_wrapper<T>] as a value: the wrapper owns its
    allocation exclusively, so it is the wrapped value, or nothing once
    the [unique_ptr] has been released. *)
Record recursive_wrapper (A : Type) : Type := Box { item : option A }.

Arguments Box {A} item.
Arguments item {A} r.

(** An lvalue of type [A]: it refers to a live [A], or to memory whose
    content must not be read as an [A]. *)
Inductive lvalue (A : Type) : Type :=
| Indeterminate
| Live (a : A).

Arguments Indeterminate {A}.
Arguments Live {A} a.

(** The discriminator.  [Tag] is [size_t] or an enumeration that starts at
    0; tags are compared and used as indices, never computed with. *)
Abbreviation tag := nat.

Section Types.
Context `{Universe}.

(** A type is a plain type [T] or [detail::recursive_wrapper<T>] for a
    plain [T].  What a plain type is made of, variants of the enclosing
    type included, only shows through its operations. *)
Inductive ty : Type :=
| Plain (b : base)
| Wrapped (b : base).

#[export] Instance ty_eq_dec : EqDecision ty.
Proof. solve_decision. Defined.

Definition den (T : ty) : Type :=
  match T with
  | Plain b => bden b
  | Wrapped b => recursive_wrapper (bden b)
  end.

Definition read {A} (x : lvalue A) : outcome exn A :=
  match x with
  | Live a => Ret a
  | Indeterminate => Undefined
  end.

(** [aligned_union_t<0, Ts...> storage]: raw bytes, or the object that
    was constructed there. *)
Inductive buffer : Type :=
| Raw
| Holds (T : ty) (x : den T).

(** [reinterpret_cast<T*>(&storage)], dereferenced: an lvalue of type
    [T], which refers to an object only if a [T] lives in the buffer. *)
Definition reinterpret_cast (T : ty) (storage : buffer) : lvalue (den T) :=
  match storage with
  | Raw => Indeterminate
  | Holds U x =>
      match decide (U = T) with
      | left e => Live (eq_rect U den x T e)
      | right _ => Indeterminate
      end
  end.

(** An argument handed to a visitor: a reference with its static type. *)
Definition arg : Type := { T : ty & lvalue (den T) }.

(** The two data members: [aligned_union_t<0, Ts...> storage; tag active;] *)
Record variant : Type := Variant { storage : buffer; active : tag }.

End Types.

(** Whether an argument expression is an lvalue (the object is copied
    from) or an rvalue (it is moved from). *)
Inductive value_category : Type := LValue | RValue.

(** ** Operations of the alternative types *)

Section Operations.
Context `{Alternatives}.

(** *** [detail::recursive_wrapper], lines 125-191 *)

(** [const T& get() const { return *item; }] *)
Definition wrapper_get {A} (w : recursive_wrapper A) : outcome exn A :=
  match item w with
  | Some x => Ret x
  | None => Undefined
  end.

(** [recursive_wrapper(const U& u) : item(new T(u))], with the [T]
    already converted from [u]. *)
Definition wrapper_from_value {A} (x : A) : recursive_wrapper A :=
  Box (Some x).

(** [recursive_wrapper(const recursive_wrapper& other)
      : item(new T(other.get()))] *)
Definition wrapper_copy (b : base) (other : recursive_wrapper (bden b))
  : outcome exn (recursive_wrapper (bden b)) :=
  let? x := wrapper_get other in
  let? y := plain_copy b x in
  Ret (Box (Some y)).

(** [recursive_wrapper(recursive_wrapper&& other) noexcept
      : item(other.item.release())] *)
Definition wrapper_move {A} (other : recursive_wrapper A)
  : recursive_wrapper A * recursive_wrapper A :=
  (Box (item other), Box None).

(** [operator=(const recursive_wrapper& rhs)
      { assign(rhs.get()); return *this; }], where [assign] is
    [*item = u]. *)
Definition wrapper_copy_assign (b : base) (rhs : recursive_wrapper (bden b))
  : M exn (recursive_wrapper (bden b)) unit :=
  let* x := lift (wrapper_get rhs) in
  fun self =>
    match item self with
    | Some old =>
        let '(r, new_) := plain_copy_assign b x old in
        (r, Box (Some new_))
    | None => (Undefined, self)
    end.

(** [recursive_wrapper& operator=(recursive_wrapper&& rhs)
      { item = std::move(rhs.item); }]: the pointer is handed over, and
    control then flows off the end of a function that returns a
    reference, which is undefined behaviour. *)
Definition wrapper_move_assign {A} (self rhs : recursive_wrapper A)
  : outcome exn unit * (recursive_wrapper A * recursive_wrapper A) :=
  (Undefined, (Box (item rhs), Box None)).

(** [operator==(x, y) { return *x.item == *y.item; }] and
    [operator<(x, y) { return *x.item < *y.item; }] *)
Definition wrapper_eq (b : base) (x y : recursive_wrapper (bden b))
  : outcome exn bool :=
  let? u := wrapper_get x in
  let? v := wrapper_get y in
  Ret (plain_eq b u v).

Definition wrapper_lt (b : base) (x y : recursive_wrapper (bden b))
  : outcome exn bool :=
  let? u := wrapper_get x in
  let? v := wrapper_get y in
  Ret (plain_lt b u v).

(** *** The operations of a type, plain or wrapped *)

(** [T()].  [recursive_wrapper] declares no default constructor, so the
    expression does not exist for a wrapper; dispatch that unwraps never
    asks for it ([get_value_external_plain] below). *)
Definition default_construct (T : ty) : outcome exn (den T) :=
  match T with
  | Plain b => plain_default b
  | Wrapped b => Undefined
  end.

Definition copy_construct (T : ty) : den T -> outcome exn (den T) :=
  match T with
  | Plain b => plain_copy b
  | Wrapped b => wrapper_copy b
  end.

Definition move_construct (T : ty) : den T -> den T * den T :=
  match T with
  | Plain b => plain_move b
  | Wrapped b => wrapper_move (A := bden b)
  end.

Definition copy_assign (T : ty) : den T -> M exn (den T) unit :=
  match T with
  | Plain b => plain_copy_assign b
  | Wrapped b => wrapper_copy_assign b
  end.

Definition move_assign (T : ty)
  : den T -> den T -> outcome exn unit * (den T * den T) :=
  match T with
  | Plain b => fun self rhs => (Ret tt, plain_move_assign b self rhs)
  | Wrapped b => wrapper_move_assign (A := bden b)
  end.

(** The type traits that the lifecycle visitors assert.  A plain type
    has a destructor, a move constructor and a move assignment that do
    not throw ([plain_move] and [plain_move_assign] have no other
    outcome).  [recursive_wrapper] has an implicit destructor and
    [recursive_wrapper(recursive_wrapper&&) noexcept] (line 145), but
    its [operator=(recursive_wrapper&&)] (line 155) is not declared
    [noexcept]. *)
Definition is_nothrow_destructible (T : ty) : bool := true.

Definition is_nothrow_move_constructible (T : ty) : bool := true.

Definition is_nothrow_move_assignable (T : ty) : bool :=
  match T with
  | Plain _ => true
  | Wrapped _ => false
  end.

Definition op_eq (T : ty) : den T -> den T -> outcome exn bool :=
  match T with
  | Plain b => fun x y => Ret (plain_eq b x y)
  | Wrapped b => wrapper_eq b
  end.

Definition op_lt (T : ty) : den T -> den T -> outcome exn bool :=
  match T with
  | Plain b => fun x y => Ret (plain_lt b x y)
  | Wrapped b => wrapper_lt b
  end.

(** [std::hash<T>{}(x)].  There is no specialization for the wrapper;
    as for [default_construct], unwrapping dispatch never asks. *)
Definition std_hash (T : ty) : den T -> outcome exn N :=
  match T with
  | Plain b => fun x => Ret (plain_hash b x)
  | Wrapped b => fun _ => Undefined
  end.

(** *** Implicit conversions

    The cost of the implicit conversion sequence from an argument of
    type [A] to a parameter of type [P]: 0 for the identity, else one
    more than the index of its rank.  A wrapper is reached from a plain
    value through its converting constructor
    [template <typename U, typename = enable_if_t<is_convertible<U, T>{}, U>>
     recursive_wrapper(const U&)]; nothing converts from a wrapper. *)

Definition is_convertible (a b : base) : bool :=
  bool_decide (a = b) || bool_decide (is_Some (plain_conversion a b)).

Definition implicit_conversion (A P : ty) : option nat :=
  match A, P with
  | Plain a, Plain b =>
      if decide (a = b) then Some 0
      else (fun r => S (rank_index r)) <$> plain_conversion a b
  | Plain a, Wrapped b =>
      if is_convertible a b then Some (S (rank_index UserDefined)) else None
  | Wrapped a, Wrapped b => if decide (a = b) then Some 0 else None
  | Wrapped a, Plain b => None
  end.

(** The temporary that the conversion creates.  The wrapper's
    converting constructors are [item(new T(u))] and
    [item(new T(std::forward<U>(u)))]. *)
Definition convert (A P : ty) (vc : value_category)
  : den A -> outcome exn (den P) :=
  match A, P with
  | Plain a, Plain b =>
      match decide (a = b) with
      | left e => fun x => Ret (eq_rect a bden x b e)
      | right _ => plain_convert a b
      end
  | Plain a, Wrapped b =>
      fun x =>
        let? y := match decide (a = b) with
                  | left e =>
                      let x' := eq_rect a bden x b e in
                      match vc with
                      | LValue => plain_copy b x'
                      | RValue => Ret (fst (plain_move b x'))
                      end
                  | right _ => plain_convert a b x
                  end in
        Ret (wrapper_from_value y)
  | Wrapped a, Wrapped b =>
      match decide (a = b) with
      | left e =>
          fun x => Ret (eq_rect a (fun c => recursive_wrapper (bden c)) x b e)
      | right _ => fun _ => Undefined
      end
  | Wrapped a, Plain b => fun _ => Undefined
  end.

End Operations.

(** *** The wrapper on the heap, seen as a value

    What a wrapper on the heap amounts to: the [T] that its pointer leads
    to, or nothing if the pointer is null or leads nowhere. *)

Definition as_value {T : Type} (h : gmap positive T)
    (w : OnHeap.recursive_wrapper) : recursive_wrapper T :=
  Box (OnHeap.item w ≫= fun l => h !! l).

Definition outcome_map {E A B} (f : A -> B) (o : outcome E A) : outcome E B :=
  let? a := o in Ret (f a).

(** ** The variant

    [variant<Tag, Ts...>]: [Ts] is the list of alternative types.  The
    discriminator is only compared and used as an index, never computed
    with, so a tag is a natural number.  [NDEBUG] tells whether [assert]
    is compiled out. *)

Class Instantiation `{Universe} : Type := {
  Ts : list ty;
  NDEBUG : bool;
}.

Section Variant.
Context `{Alternatives} {inst : Instantiation}.

(** [tag which() const { return active; }] *)
Definition variant_which (v : variant) : tag := active v.

(** *** Dispatch, lines 466-515 *)

(** A visitor called on a const storage: one overload per type, the
    arguments bound so far, and the object [S] it holds by reference. *)
Definition Visitor (S R : Type) : Type :=
  forall T : ty, lvalue (den T) -> list arg -> M exn S R.

(** A visitor called on a non-const storage: it also says what it
    leaves in the object it was given. *)
Definition MutVisitor (S R : Type) : Type :=
  forall T : ty, lvalue (den T) -> M exn S (R * lvalue (den T)).

(** The four overloads of [get_value]: the object itself, except that
    with [Internal = std::false_type] a wrapper gives [x.get()]. *)
Definition get_value {T : ty} (x : lvalue (den T)) (internal : bool)
  : outcome exn arg :=
  match T return lvalue (den T) -> outcome exn arg with
  | Plain b => fun x => Ret (existT (Plain b) x)
  | Wrapped b =>
      fun x =>
        if internal then Ret (existT (Wrapped b) x)
        else
          let? w := read x in
          let? y := wrapper_get w in
          Ret (existT (Plain b) (Live y))
  end x.

(** [invoke<T>]: [auto x = reinterpret_cast<const T*>(&storage);
    return visitor(get_value( *x, internal), args...);] *)
Definition invoke {S R} (T : ty) (internal : bool) (storage : buffer)
    (visitor : Visitor S R) (args : list arg) : M exn S R :=
  let x := reinterpret_cast T storage in
  let* y := lift (get_value x internal) in
  visitor (projT1 y) (projT2 y) args.

(** [visit_impl]: [static constexpr fn callers[sizeof...(Ts)] =
      { &invoke<Ts, Internal, Storage, Visitor, Args...>... };
    assert(static_cast<size_t>(which_active) >= 0 &&
           static_cast<size_t>(which_active) < sizeof...(Ts));
    return ( *callers[static_cast<size_t>(which_active)])(internal, storage,
                                                         visitor, args...);]
    With [NDEBUG] the assertion is gone and an index that is out of range
    reads past the table. *)
Definition visit_impl {S R} (which_active : tag) (internal : bool)
    (storage : buffer) (visitor : Visitor S R) (args : list arg)
  : M exn S R :=
  let callers := (fun T => invoke (S := S) (R := R) T) <$> Ts in
  if NDEBUG || bool_decide (which_active < length Ts) then
    match callers !! which_active with
    | Some caller => caller internal storage visitor args
    | None => lift Undefined
    end
  else lift AssertFail.

(** [apply<Internal>(visitor, args...) const] *)
Definition apply {S R} (v : variant) (internal : bool)
    (visitor : Visitor S R) (args : list arg) : M exn S R :=
  visit_impl (active v) internal (storage v) visitor args.

(** [apply_visitor_internal(v) const { return apply<std::true_type>(v); }] *)
Definition apply_visitor_internal {S R} (v : variant)
    (visitor : Visitor S R) : M exn S R :=
  apply v true visitor [].

(** The same dispatch on a non-const storage with
    [Internal = std::true_type], as the lifecycle uses it: the visitor
    gets a mutable reference, and what it leaves there is what the
    buffer holds afterwards. *)
Definition invoke_mut {S R} (T : ty) (storage : buffer)
    (visitor : MutVisitor S R) : M exn S (R * buffer) :=
  let x := reinterpret_cast T storage in
  let* (r, x') := visitor T x in
  mpure (r, match x' with
            | Live a => Holds T a
            | Indeterminate => Raw
            end).

Definition visit_impl_mut {S R} (which_active : tag) (storage : buffer)
    (visitor : MutVisitor S R) : M exn S (R * buffer) :=
  let callers := (fun T => invoke_mut (S := S) (R := R) T) <$> Ts in
  if NDEBUG || bool_decide (which_active < length Ts) then
    match callers !! which_active with
    | Some caller => caller storage visitor
    | None => lift Undefined
    end
  else lift AssertFail.

(** [apply_visitor_internal(v) { return apply<std::true_type>(v); }] *)
Definition apply_visitor_internal_mut {S R} (v : variant)
    (visitor : MutVisitor S R) : M exn S (R * buffer) :=
  visit_impl_mut (active v) (storage v) visitor.

(** *** Lifecycle, lines 225-305 and 330-438, 517-546 *)

(** [construct(T&& x)] is [new (&storage) type(std::forward<T>(x))]:
    with an lvalue the copy constructor runs and may throw, with an
    rvalue the move constructor, which also leaves the donor changed. *)
Definition construct_copy (T : ty) (x : den T) : M exn buffer unit :=
  let* y := lift (copy_construct T x) in
  put_state (Holds T y).

Definition construct_move (T : ty) (x : den T) : M exn buffer (den T) :=
  let '(y, x') := move_construct T x in
  put_state (Holds T y) ;;;
  mpure x'.

(** A member function of the buffer run on the variant that owns it. *)
Definition on_storage {A} (m : M exn buffer A) : M exn variant A :=
  fun self =>
    let '(r, b) := m (storage self) in
    (r, Variant b (active self)).

(** The object a constructor body leaves behind, once [active] is set;
    no object comes into existence if the body did not return. *)
Definition constructed {A} (body : outcome exn A * buffer) (t : tag)
  : outcome exn variant :=
  let? _ := fst body in
  Ret (Variant (snd body) t).

(** [default_ctor]: [void operator()(const T&) const
      { self.construct(T()); }] *)
Definition default_ctor : Visitor buffer unit :=
  fun T _ _ =>
    let* x := lift (default_construct T) in
    construct_move T x ;;;
    mpure tt.

(** [variant(factory, tag t) : active(t)
      { apply<std::false_type>(default_ctor( *this)); }]
    The storage visited is the new object's own, still raw. *)
Definition factory_ctor (t : tag) : outcome exn variant :=
  constructed (visit_impl t false Raw default_ctor [] Raw) t.

(** [static variant make(tag t) { return {factory{}, t}; }] *)
Definition make (t : tag) : outcome exn variant := factory_ctor t.

(** [copy_ctor]: [void operator()(const T& other) const
      { self.construct(other); }] *)
Definition copy_ctor : Visitor buffer unit :=
  fun T other _ =>
    let* x := lift (read other) in
    construct_copy T x.

(** [variant(const variant& other)
      { other.apply_visitor_internal(copy_ctor( *this));
        active = other.active; }] *)
Definition variant_copy (other : variant) : outcome exn variant :=
  constructed (apply_visitor_internal other copy_ctor Raw) (active other).

(** [move_ctor]: [void operator()(T& rhs) const noexcept
      { self.construct(std::move(rhs)); }] *)
Definition move_ctor : MutVisitor buffer unit :=
  fun T rhs =>
    let* x := lift (read rhs) in
    let* x' := construct_move T x in
    mpure (tt, Live x').

(** [variant(variant&& other) noexcept
      { other.apply_visitor_internal(move_ctor( *this));
        active = other.active; }]
    The result is the new variant and the donor afterwards. *)
Definition variant_move (other : variant) : outcome exn variant * variant :=
  match apply_visitor_internal_mut other move_ctor Raw with
  | (Ret (_, donor), b) =>
      (Ret (Variant b (active other)), Variant donor (active other))
  | (Throw e, _) => (Throw e, other)
  | (AssertFail, _) => (AssertFail, other)
  | (Undefined, _) => (Undefined, other)
  end.

(** [dtor]: [void operator()(T& x) const noexcept { x.~T(); }] *)
Definition dtor : MutVisitor unit unit :=
  fun T x =>
    let* _ := lift (read x) in
    mpure (tt, Indeterminate).

(** [void destruct() noexcept { apply_visitor_internal(dtor()); }] *)
Definition destruct : M exn variant unit :=
  fun self =>
    match apply_visitor_internal_mut self dtor tt with
    | (Ret (_, b), _) => (Ret tt, Variant b (active self))
    | (Throw e, _) => (Throw e, self)
    | (AssertFail, _) => (AssertFail, self)
    | (Undefined, _) => (Undefined, self)
    end.

(** [assigner], lines 370-396:
    [if ( self.active == rhs_active )
       *reinterpret_cast<Rhs*>(&self.storage) = rhs;
     else
       { Rhs tmp(rhs); self.destruct(); self.construct(std::move(tmp)); }] *)
Definition assigner (rhs_active : tag) : Visitor variant unit :=
  fun Rhs x _ =>
    let* rhs := lift (read x) in
    let* self := get_state in
    if decide (active self = rhs_active) then
      let* dst := lift (read (reinterpret_cast Rhs (storage self))) in
      let '(r, dst') := copy_assign Rhs rhs dst in
      put_state (Variant (Holds Rhs dst') (active self)) ;;;
      lift r
    else
      let* tmp := lift (copy_construct Rhs rhs) in
      destruct ;;;
      let* _ := on_storage (construct_move Rhs tmp) in
      mpure tt.

(** [active = t;] *)
Definition set_active (t : tag) : M exn variant unit :=
  fun self => (Ret tt, Variant (storage self) t).

(** [variant& operator=(const variant& rhs)
      { rhs.apply_visitor_internal(assigner( *this, rhs.active));
        active = rhs.active; return *this; }], acting on [*this], an
    object other than [rhs]. *)
Definition variant_copy_assign (rhs : variant) : M exn variant unit :=
  apply_visitor_internal rhs (assigner (active rhs)) ;;;
  set_active (active rhs).

(** [move_assigner], lines 398-426.  Its call operator opens with
    [static_assert(std::is_nothrow_destructible<rhs_type>{}, ...);
     static_assert(std::is_nothrow_move_assignable<rhs_type>{}, ...);
     static_assert(std::is_nothrow_move_constructible<rhs_type>{}, ...);]
    which decide whether the operator can be instantiated at [Rhs]. *)
Definition move_assigner_asserts (Rhs : ty) : bool :=
  is_nothrow_destructible Rhs &&
  is_nothrow_move_assignable Rhs &&
  is_nothrow_move_constructible Rhs.

(** The body of the call operator:
    [if ( self.active == rhs_active )
       *reinterpret_cast<rhs_type*>(&self.storage) = std::move(rhs);
     else
       { self.destruct(); self.construct(std::move(rhs)); }] *)
Definition move_assigner (rhs_active : tag) : MutVisitor variant unit :=
  fun Rhs x =>
    let* rhs := lift (read x) in
    let* self := get_state in
    if decide (active self = rhs_active) then
      let* dst := lift (read (reinterpret_cast Rhs (storage self))) in
      let '(r, (dst', rhs')) := move_assign Rhs dst rhs in
      put_state (Variant (Holds Rhs dst') (active self)) ;;;
      lift r ;;;
      mpure (tt, Live rhs')
    else
      destruct ;;;
      let* rhs' := on_storage (construct_move Rhs rhs) in
      mpure (tt, Live rhs').

(** [variant& operator=(variant&& rhs) noexcept
      { rhs.apply_visitor_internal(move_assigner( *this, rhs.active));
        active = rhs.active; return *this; }]
    The jump table of [visit_impl] instantiates the visitor at every
    alternative of [Ts]: when one of them fails an assertion of
    [move_assigner] the operator does not compile, [None].  Otherwise
    the result is the outcome, [*this] and the donor afterwards, for
    two distinct objects. *)
Definition variant_move_assign (self rhs : variant)
  : option (outcome exn unit * (variant * variant)) :=
  if forallb move_assigner_asserts Ts then
    Some
      match
        apply_visitor_internal_mut rhs (move_assigner (active rhs)) self
      with
      | (Ret (_, donor), self') =>
          (Ret tt, (Variant (storage self') (active rhs),
                    Variant donor (active rhs)))
      | (Throw e, self') => (Throw e, (self', rhs))
      | (AssertFail, self') => (AssertFail, (self', rhs))
      | (Undefined, self') => (Undefined, (self', rhs))
      end
  else None.

(** *** Comparison, lines 548-581 *)

(** [equals]: [bool operator()(const Rhs& rhs) const
      { return *reinterpret_cast<const Rhs*>(&self.storage) == rhs; }] *)
Definition equals (self : variant) : Visitor unit bool :=
  fun Rhs y _ =>
    let* rhs := lift (read y) in
    let* lhs := lift (read (reinterpret_cast Rhs (storage self))) in
    lift (op_eq Rhs lhs rhs).

(** [less_than]: the same with [<]. *)
Definition less_than (self : variant) : Visitor unit bool :=
  fun Rhs y _ =>
    let* rhs := lift (read y) in
    let* lhs := lift (read (reinterpret_cast Rhs (storage self))) in
    lift (op_lt Rhs lhs rhs).

(** [operator==(x, y)
      { return x.active == y.active && y.apply_visitor_internal(equals{x}); }] *)
Definition variant_eq (x y : variant) : outcome exn bool :=
  if decide (active x = active y)
  then fst (apply_visitor_internal y (equals x) tt)
  else Ret false.

(** [operator<(x, y)
      { if ( x.active == y.active )
          return y.apply_visitor_internal(less_than{x});
        else
          return x.active < y.active; }] *)
Definition variant_lt (x y : variant) : outcome exn bool :=
  if decide (active x = active y)
  then fst (apply_visitor_internal y (less_than x) tt)
  else Ret (bool_decide (active x < active y)).

(** *** Visitation and accessors, lines 44-62, 102-123, 626-717 *)

(** [expose(v) { return v; }] *)
Definition expose (v : variant) : variant := v.

(** [apply_visitor(visitor, visitable)
      { return visitable.apply<std::false_type>(visitor); }] *)
Definition apply_visitor {S R} (visitor : Visitor S R) (visitable : variant)
  : M exn S R :=
  apply visitable false visitor [].

(** [binary_visitor]: holds the visitor and a visitable by reference;
    [operator()(Ts&&... xs)
      { return visitable.apply<std::false_type>(visitor, xs...); }] *)
Definition binary_visitor {S R} (visitor : Visitor S R) (visitable : variant)
  : Visitor S R :=
  fun T x args => apply visitable false visitor (existT T x :: args).

(** [apply_visitor(visitor, v, vs...)
      { return apply_visitor(binary_visitor<Visitor, V>(visitor, v), vs...); }]
    and the unary overload when [vs] is empty. *)
Fixpoint apply_visitor_n {S R} (vs : list variant)
  : Visitor S R -> variant -> M exn S R :=
  match vs with
  | [] => fun visitor v => apply_visitor visitor v
  | v' :: vs' =>
      fun visitor v => apply_visitor_n vs' (binary_visitor visitor v) v'
  end.

(** [visit(v, vs...) { return apply_visitor(v, expose(vs)...); }] *)
Definition visit {S R} (visitor : Visitor S R) (v : variant)
    (vs : list variant) : M exn S R :=
  apply_visitor_n (expose <$> vs) visitor (expose v).

(** [getter<T>]: [T* operator()(T& val) const { return &val; }] and
    [template <typename U> T* operator()(const U&) const
      { return nullptr; }].  A pointer is [None] when null, else the
    lvalue it points to. *)
Definition getter (T : ty) : Visitor unit (option (lvalue (den T))) :=
  fun U x _ =>
    mpure match decide (U = T) with
          | left e => Some (eq_rect U (fun V => lvalue (den V)) x T e)
          | right _ => None
          end.

(** [get<T>(v) { return apply_visitor(getter<T>{}, expose(v)); }] *)
Definition get (T : ty) (v : variant)
  : outcome exn (option (lvalue (den T))) :=
  fst (apply_visitor (getter T) (expose v) tt).

(** [is<T>(v) { return get<T>(v) != nullptr; }]; the name [is] is
    reserved here. *)
Definition is_ (T : ty) (v : variant) : outcome exn bool :=
  let? p := get T v in
  Ret match p with Some _ => true | None => false end.

(** [which(v) { return expose(v).which(); }] *)
Definition which (v : variant) : tag := variant_which (expose v).

(** [hasher]: [size_t operator()(const T& x) const
      { return std::hash<T>{}(x); }] *)
Definition hasher : Visitor unit N :=
  fun T x _ =>
    let* y := lift (read x) in
    lift (std_hash T y).

(** [std::hash<variant>::operator()(v)
      { return broker::util::visit(hasher{}, v); }] *)
Definition hash (v : variant) : outcome exn N :=
  fst (visit hasher v [] tt).

(** *** Construction from a value, lines 255-261 and 440-464 *)

(** [initializer<TT, T, Tail...>] derives from
    [initializer<TT + 1, Tail...>], declares [initialize(variant&, T&&)]
    and [initialize(variant&, const T&)] and brings in the base's
    overloads with [using base::initialize]; a using-declaration does
    not bring in a function that the class declares with the same
    parameters.  [initializer<TT>] only has [initialize()], which takes
    no argument.  The overload set is listed by parameter type with the
    tag that the overload assigns. *)
Fixpoint initializer (TT : nat) (Tail : list ty) : list (ty * nat) :=
  match Tail with
  | [] => []
  | T :: Tail' =>
      (T, TT) :: filter (fun c => c.1 <> T) (initializer (S TT) Tail')
  end.

(** [initialize(variant& v, const T& x)
      { v.construct(x); v.active = static_cast<tag>(TT); }] *)
Definition initialize_lvalue (T : ty) (TT : nat) (x : den T)
  : outcome exn variant :=
  constructed (construct_copy T x Raw) TT.

(** [initialize(variant& v, T&& x)
      { v.construct(std::move(x)); v.active = static_cast<tag>(TT); }] *)
Definition initialize_rvalue (T : ty) (TT : nat) (x : den T)
  : outcome exn variant :=
  constructed (construct_move T x Raw) TT.

(** Overload resolution for the call [initialize( *this, x)] with [x]
    of type [A]: the viable overloads are those whose parameter type
    [x] converts to; the call is well formed when one of them is better
    than every other one, which here is a strictly smaller conversion
    cost. *)
Definition viable (A : ty) (overloads : list (ty * nat))
  : list (nat * (ty * nat)) :=
  omap (fun c => (fun cost => (cost, c)) <$> implicit_conversion A c.1)
       overloads.

Definition better_than_others (vs : list (nat * (ty * nat)))
    (c : nat * (ty * nat)) : bool :=
  forallb (fun c' => bool_decide (c'.2 = c.2) || (c.1 <? c'.1)) vs.

Definition overload_resolution (A : ty) (overloads : list (ty * nat))
  : option (ty * nat) :=
  let vs := viable A overloads in
  snd <$> head (filter (fun c => better_than_others vs c = true) vs).

(** [template <typename T, typename = disable_if_same_or_derived_t<variant, T>>
    variant(T&& x) { initializer<0, Ts...>::initialize( *this, std::forward<T>(x)); }]
    [None]: the program is ill formed, the call does not compile.  When
    [x] already has the parameter type, [const T&] binds an lvalue and
    [T&&] an rvalue; otherwise the converted temporary binds to [T&&]. *)
Definition variant_from_value (A : ty) (vc : value_category) (x : den A)
  : option (outcome exn variant) :=
  match overload_resolution A (initializer 0 Ts) with
  | None => None
  | Some (T, TT) =>
      Some match decide (A = T) with
           | left e =>
               let x' := eq_rect A den x T e in
               match vc with
               | LValue => initialize_lvalue T TT x'
               | RValue => initialize_rvalue T TT x'
               end
           | right _ =>
               let? tmp := convert A T vc x in
               initialize_rvalue T TT tmp
           end
  end.

(** The selection rule in the words of the specification: the first
    declared alternative that [x] converts to. *)
Definition spec_first_convertible (A : ty) : option nat :=
  fst <$> list_find (fun T => is_Some (implicit_conversion A T)) Ts.

(** *** The ordering mixin *)

(** Modelled from the spec: [totally_ordered] of
    [broker/util/operators.hh], which is not part of the sources at
    hand; it "supplies [<, <=, >, >=, !=] from a type's own [==]/[<]".
    [x != y] is [!(x == y)]. *)
Definition variant_ne (x y : variant) : outcome exn bool :=
  let? b := variant_eq x y in Ret (negb b).

(** Modelled from the spec: [x > y] of [totally_ordered], missing as
    above, is [y < x]. *)
Definition variant_gt (x y : variant) : outcome exn bool :=
  variant_lt y x.

(** Modelled from the spec: [x <= y] of [totally_ordered], missing as
    above, is [!(y < x)]. *)
Definition variant_le (x y : variant) : outcome exn bool :=
  let? b := variant_lt y x in Ret (negb b).

(** Modelled from the spec: [x >= y] of [totally_ordered], missing as
    above, is [!(x < y)]. *)
Definition variant_ge (x y : variant) : outcome exn bool :=
  let? b := variant_lt x y in Ret (negb b).

(** *** The invariant and the vocabulary of the statements *)

(** The variant [v] holds the alternative [T] with value [x]: its tag
    selects [T] and a [T] of that value lives in its storage. *)
Definition holds (v : variant) (T : ty) (x : den T) : Prop :=
  Ts !! active v = Some T /\ storage v = Holds T x.

(** Invariants (a) to (c) of the data model. *)
Definition well_formed (v : variant) : Prop :=
  exists T x, holds v T x.

(** A wrapper that still owns its value; a plain object always is. *)
Definition engaged {T : ty} : den T -> Prop :=
  match T with
  | Plain _ => fun _ => True
  | Wrapped _ => fun w => item w <> None
  end.

(** What a client sees of [v]: the active value, unwrapped. *)
Definition presents (v : variant) (a : arg) : Prop :=
  (exists b x, holds v (Plain b) x /\ a = existT (Plain b) (Live x)) \/
  (exists b x, holds v (Wrapped b) (Box (Some x)) /\
               a = existT (Plain b) (Live x)).

(** [T] is declared at index [i], and not before. *)
Definition declared_at (T : ty) (i : nat) : Prop :=
  Ts !! i = Some T /\ forall j, j < i -> Ts !! j <> Some T.

(** The object that [T]'s own constructor makes from [t]: the copy
    constructor for an lvalue, the move constructor for an rvalue. *)
Definition construct_value (T : ty) (vc : value_category) (t : den T)
  : outcome exn (den T) :=
  match vc with
  | LValue => copy_construct T t
  | RValue => Ret (fst (move_construct T t))
  end.

(** The object that [variant(T&& x)] constructs in the storage for the
    selected parameter type [T], from [x] of type [A]: made by [T]'s
    constructor when [x] is a [T], moved from the converted temporary
    otherwise. *)
Definition initial_value (A T : ty) (vc : value_category) (x : den A)
  : outcome exn (den T) :=
  match decide (A = T) with
  | left e => construct_value T vc (eq_rect A den x T e)
  | right _ =>
      let? tmp := convert A T vc x in
      Ret (fst (move_construct T tmp))
  end.

(** Requirements on the alternative types that some statements need.
    Copies and moved-to objects have the value of their source. *)
Definition faithful_copies : Prop :=
  (forall b x y, plain_copy b x = Ret y -> y = x) /\
  (forall b x, fst (plain_move b x) = x).

(** [==] and [<] of a plain type form a strict total order. *)
Definition strict_total_order (b : base) : Prop :=
  (forall x, plain_lt b x x = false) /\
  (forall x y z, plain_lt b x y = true -> plain_lt b y z = true ->
                 plain_lt b x z = true) /\
  (forall x y, plain_eq b x y = true <->
               plain_lt b x y = false /\ plain_lt b y x = false).

(** [std::hash] of a plain type agrees with its [==]. *)
Definition hash_respects_eq (b : base) : Prop :=
  forall x y, plain_eq b x y = true -> plain_hash b x = plain_hash b y.

(** The plain type behind [T], and the plain value behind an object. *)
Definition unwrapped (T : ty) : base :=
  match T with Plain b => b | Wrapped b => b end.

Definition payload {T : ty} : den T -> option (bden (unwrapped T)) :=
  match T with
  | Plain _ => fun x => Some x
  | Wrapped _ => fun w => item w
  end.

(** A well-formed variant whose value can be used: not a wrapper that
    was moved from. *)
Definition usable (v : variant) : Prop :=
  exists T x, holds v T x /\ engaged x.

(** Of three truth values, exactly one holds. *)
Definition exactly_one (l e g : bool) : Prop :=
  (l = true /\ e = false /\ g = false) \/
  (l = false /\ e = true /\ g = false) \/
  (l = false /\ e = false /\ g = true).

(** *** Default construction *)

(** A [noexcept] function: an exception that reaches its boundary does
    not leave it, [std::terminate] is called; [inr e] is that end, with
    the exception [e] that caused it. *)
Definition noexcept {A} (o : outcome exn A) : outcome exn A + exn :=
  match o with
  | Throw e => inr e
  | _ => inl o
  end.

(** [variant() noexcept { construct(front{}); active = tag{}; }] where
    [front] is the first of [Ts].  Without alternatives [front] does not
    exist, and a [recursive_wrapper] has no default constructor for
    [front{}]: in both cases the constructor does not compile. *)
Definition variant_default : option (outcome exn variant + exn) :=
  match Ts with
  | [] => None
  | Wrapped _ :: _ => None
  | Plain b :: _ =>
      Some (noexcept (let? x := default_construct (Plain b) in
                      constructed (construct_move (Plain b) x Raw) 0))
  end.

(** *** More vocabulary *)



(** Assignments of the plain types give the destination the value of
    the source. *)
Definition faithful_assignments : Prop :=
  (forall b x old y, plain_copy_assign b x old = (Ret tt, y) -> y = x) /\
  (forall b self rhs, fst (plain_move_assign b self rhs) = rhs).

(** [==] of a plain type is an equivalence. *)
Definition eq_equivalence (b : base) : Prop :=
  (forall x, plain_eq b x x = true) /\
  (forall x y, plain_eq b x y = plain_eq b y x) /\
  (forall x y z, plain_eq b x y = true -> plain_eq b y z = true ->
                 plain_eq b x z = true).

End Variant.

(** ** A concrete instantiation

    The alternative set of the specification's scenario, Bool, Int and
    Text, together with Long (to have two integer types that convert to
    each other) and Node, a type that is only used boxed. *)

Module Scenario.

Inductive kind : Type := KBool | KInt | KLong | KText | KNode.

#[export] Instance kind_eq_dec : EqDecision kind.
Proof. solve_decision. Defined.

Definition value (k : kind) : Type :=
  match k with
  | KBool => bool
  | KInt => Z
  | KLong => Z
  | KText => String.string
  | KNode => list Z
  end.

Inductive exception : Type := bad_alloc.

#[export] Instance universe : Universe :=
  {| base := kind; bden := value; exn := exception |}.

(** Copying a Text or a Node allocates; the allocation fails beyond
    [capacity] elements. *)
Definition capacity : nat := 8.

Definition copy_of (k : kind) : value k -> outcome exception (value k) :=
  match k with
  | KBool => fun x => Ret x
  | KInt => fun x => Ret x
  | KLong => fun x => Ret x
  | KText => fun x : String.string =>
      if capacity <? String.length x then Throw bad_alloc else Ret x
  | KNode => fun x : list Z =>
      if capacity <? length x then Throw bad_alloc else Ret x
  end.

Definition default_of (k : kind) : value k :=
  match k with
  | KBool => false
  | KInt => 0%Z
  | KLong => 0%Z
  | KText => String.EmptyString
  | KNode => []
  end.

(** The state of a moved-from object: scalars keep their value,
    containers are left empty. *)
Definition moved_from (k : kind) : value k -> value k :=
  match k with
  | KBool => fun x => x
  | KInt => fun x => x
  | KLong => fun x => x
  | KText => fun _ => String.EmptyString
  | KNode => fun _ => []
  end.

Definition eq_of (k : kind) : value k -> value k -> bool :=
  match k with
  | KBool => Bool.eqb
  | KInt => Z.eqb
  | KLong => Z.eqb
  | KText => String.eqb
  | KNode => fun x y : list Z => bool_decide (x = y)
  end.

Definition lt_of (k : kind) : value k -> value k -> bool :=
  match k with
  | KBool => fun x y : bool => negb x && y
  | KInt => Z.ltb
  | KLong => Z.ltb
  | KText => String.ltb
  | KNode => fun x y : list Z => length x <? length y
  end.

Definition hash_of (k : kind) : value k -> N :=
  match k with
  | KBool => fun x : bool => if x then 1%N else 0%N
  | KInt => Z.to_N
  | KLong => Z.to_N
  | KText => fun x : String.string => N.of_nat (String.length x)
  | KNode => fun x : list Z => N.of_nat (length x)
  end.

(** Bool promotes to Int; the integer types convert to each other and
    to Bool; nothing else converts. *)
Definition conversion (a b : kind) : option conv_rank :=
  match a, b with
  | KBool, KInt => Some Promotion
  | KBool, KLong => Some Conversion
  | KInt, KLong => Some Conversion
  | KLong, KInt => Some Conversion
  | KInt, KBool => Some Conversion
  | KLong, KBool => Some Conversion
  | _, _ => None
  end.

Definition convert_value (a b : kind)
  : value a -> outcome exception (value b) :=
  match a, b with
  | KBool, KInt => fun x : bool => Ret (if x then 1 else 0)%Z
  | KBool, KLong => fun x : bool => Ret (if x then 1 else 0)%Z
  | KInt, KLong => fun x : Z => Ret x
  | KLong, KInt => fun x : Z => Ret x
  | KInt, KBool => fun x : Z => Ret (negb (x =? 0)%Z)
  | KLong, KBool => fun x : Z => Ret (negb (x =? 0)%Z)
  | _, _ => fun _ => Undefined
  end.

#[export] Instance alternatives : Alternatives :=
  {| plain_default := fun k => Ret (default_of k);
     plain_copy := copy_of;
     plain_move := fun k x => (x, moved_from k x);
     plain_copy_assign := fun k rhs self =>
       match copy_of k rhs with
       | Ret y => (Ret tt, y)
       | Throw e => (Throw e, self)
       | AssertFail => (AssertFail, self)
       | Undefined => (Undefined, self)
       end;
     plain_move_assign := fun k self rhs => (rhs, moved_from k rhs);
     plain_eq := eq_of;
     plain_lt := lt_of;
     plain_hash := hash_of;
     plain_conversion := conversion;
     plain_convert := convert_value |}.

Definition Bool : ty := Plain KBool.
Definition Int : ty := Plain KInt.
Definition Long : ty := Plain KLong.
Definition Text : ty := Plain KText.
Definition BoxedNode : ty := Wrapped KNode.

(** [variant<size_t, bool, int, std::string>] *)
Definition bool_int_text : Instantiation :=
  {| Ts := [Plain KBool; Plain KInt; Plain KText]; NDEBUG := false |}.

(** [variant<size_t, bool, int, detail::recursive_wrapper<node>>] *)
Definition bool_int_node : Instantiation :=
  {| Ts := [Plain KBool; Plain KInt; Wrapped KNode]; NDEBUG := false |}.

(** [variant<size_t, long, int>] *)
Definition long_int : Instantiation :=
  {| Ts := [Plain KLong; Plain KInt]; NDEBUG := false |}.

(** [variant<size_t, long, bool>]: an Int argument converts to both
    alternatives, at the same rank. *)
Definition long_bool : Instantiation :=
  {| Ts := [Plain KLong; Plain KBool]; NDEBUG := false |}.

(** Some variants over these alternative sets. *)
Definition int_42 : variant := Variant (Holds (Plain KInt) 42%Z) 1.
Definition int_3 : variant := Variant (Holds (Plain KInt) 3%Z) 1.
Definition int_7 : variant := Variant (Holds (Plain KInt) 7%Z) 1.
Definition long_5 : variant := Variant (Holds (Plain KLong) 5%Z) 0.
Definition bool_true : variant := Variant (Holds (Plain KBool) true) 0.
Definition text_hi : variant := Variant (Holds (Plain KText) "hi"%string) 2.
Definition text_long : variant :=
  Variant (Holds (Plain KText) "123456789"%string) 2.
Definition boxed_node : variant :=
  Variant (Holds (Wrapped KNode) (Box (Some [1; 2]%Z))) 2.

Definition all_three : list variant := [bool_true; int_42; text_hi].

(** A visitor of any arity that reports the types it is called with. *)
Definition kinds_of : Visitor unit (list kind) :=
  fun T _ args =>
    mpure (unwrapped T :: ((fun a => unwrapped (projT1 a)) <$> args)).

(** A heap with two boxed integers, for [OnHeap]: integers copy and
    assign without failure. *)
Definition int_copy (x : Z) : outcome exception Z := Ret x.
Definition int_assign (rhs : Z) : M exception Z unit :=
  fun _ => (Ret tt, rhs).
Definition two_boxes : gmap positive Z := {[ 1%positive := 5%Z; 2%positive := 7%Z ]}.
Definition box_1 : OnHeap.recursive_wrapper := OnHeap.Wrapper (Some 1%positive).
Definition box_2 : OnHeap.recursive_wrapper := OnHeap.Wrapper (Some 2%positive).

Definition boxed_node_3 : variant :=
  Variant (Holds (Wrapped KNode) (Box (Some [3]%Z))) 2.
Definition box_null : OnHeap.recursive_wrapper := OnHeap.Wrapper None.

End Scenario.

(** * Properties *)

(** ** Dispatch *)

Section DispatchFacts.
Context `{Alternatives} {inst : Instantiation}.

Lemma reinterpret_cast_same (T : ty) (x : den T) :
  reinterpret_cast T (Holds T x) = Live x.
Proof.
  unfold reinterpret_cast.
  destruct (decide (T = T)) as [e | n]; [ | congruence ].
  by rewrite (proof_irrel e eq_refl).
Qed.

Lemma reinterpret_cast_other (T U : ty) (x : den U) :
  U <> T -> reinterpret_cast T (Holds U x) = Indeterminate.
Proof.
  intros Hne. unfold reinterpret_cast.
  destruct (decide (U = T)); [ congruence | done ].
Qed.

Lemma assertion_holds (t : tag) (T : ty) :
  Ts !! t = Some T -> NDEBUG || bool_decide (t < length Ts) = true.
Proof.
  intros Hlook. apply lookup_lt_Some in Hlook.
  rewrite bool_decide_true; [ apply orb_true_r | done ].
Qed.

(** The jump table sends an in-range tag to [invoke] at the type
    declared at that index. *)
Lemma visit_impl_in_range {S R} (t : tag) (T : ty) internal storage
    (visitor : Visitor S R) args :
  Ts !! t = Some T ->
  visit_impl t internal storage visitor args
  = invoke T internal storage visitor args.
Proof.
  intros Hlook. unfold visit_impl. cbv zeta.
  rewrite (assertion_holds _ Hlook), list_lookup_fmap, Hlook. done.
Qed.

Lemma visit_impl_mut_in_range {S R} (t : tag) (T : ty) storage
    (visitor : MutVisitor S R) :
  Ts !! t = Some T ->
  visit_impl_mut t storage visitor = invoke_mut T storage visitor.
Proof.
  intros Hlook. unfold visit_impl_mut. cbv zeta.
  rewrite (assertion_holds _ Hlook), list_lookup_fmap, Hlook. done.
Qed.

(** Out of range, a debug build stops at the assertion and a build with
    [NDEBUG] reads past the jump table. *)
Lemma visit_impl_out_of_range {S R} (t : tag) internal storage
    (visitor : Visitor S R) args :
  length Ts <= t ->
  visit_impl t internal storage visitor args
  = lift (if NDEBUG then Undefined else AssertFail).
Proof.
  intros Hge. unfold visit_impl. cbv zeta.
  rewrite bool_decide_false by lia.
  rewrite list_lookup_fmap, (lookup_ge_None_2 Ts t) by done.
  by destruct NDEBUG.
Qed.

(** Internal dispatch on a variant that holds [T] calls the visitor on
    that very object. *)
Lemma apply_internal_holds {S R} (v : variant) (T : ty) (x : den T)
    (visitor : Visitor S R) :
  holds v T x ->
  apply_visitor_internal v visitor = visitor T (Live x) [].
Proof.
  intros [Hlook Hsto]. unfold apply_visitor_internal, apply.
  erewrite visit_impl_in_range by exact Hlook. rewrite Hsto.
  unfold invoke. rewrite reinterpret_cast_same.
  destruct T; reflexivity.
Qed.

Lemma apply_internal_mut_holds {S R} (v : variant) (T : ty) (x : den T)
    (visitor : MutVisitor S R) (s : S) :
  holds v T x ->
  apply_visitor_internal_mut v visitor s
  = match visitor T (Live x) s with
    | (Ret (r, Live y), s') => (Ret (r, Holds T y), s')
    | (Ret (r, Indeterminate), s') => (Ret (r, Raw), s')
    | (Throw e, s') => (Throw e, s')
    | (AssertFail, s') => (AssertFail, s')
    | (Undefined, s') => (Undefined, s')
    end.
Proof.
  intros [Hlook Hsto]. unfold apply_visitor_internal_mut.
  erewrite visit_impl_mut_in_range by exact Hlook. rewrite Hsto.
  unfold invoke_mut. rewrite reinterpret_cast_same.
  unfold mseq. destruct (visitor T (Live x) s) as [[[r [ | y]] | | | ] s'];
    reflexivity.
Qed.

(** External dispatch calls the visitor on what the variant presents. *)
Lemma apply_external_presents {S R} (v : variant) (a : arg)
    (visitor : Visitor S R) args :
  presents v a ->
  apply v false visitor args = visitor (projT1 a) (projT2 a) args.
Proof.
  intros [(b & x & [Hlook Hsto] & ->) | (b & x & [Hlook Hsto] & ->)];
    unfold apply;
    erewrite visit_impl_in_range by exact Hlook; rewrite Hsto;
    unfold invoke; rewrite reinterpret_cast_same; reflexivity.
Qed.

(** Dispatch that unwraps only ever hands a plain type to the visitor:
    the overloads for a wrapper are never selected. *)
Lemma get_value_external_plain (T : ty) (x : lvalue (den T)) (a : arg) :
  get_value x false = Ret a -> exists b, projT1 a = Plain b.
Proof.
  destruct T as [b | b]; simpl.
  - intros Heq. exists b. inversion Heq. reflexivity.
  - destruct x as [ | [[y | ]]]; simpl; try done.
    intros Heq. exists b. inversion Heq. reflexivity.
Qed.

End DispatchFacts.

(** ** Lifecycle and comparison *)

Section VariantFacts.
Context `{Alternatives} {inst : Instantiation}.

Lemma holds_type_unique (v w : variant) T U (x : den T) (y : den U) :
  holds v T x -> holds w U y -> active v = active w -> T = U.
Proof. intros [Hv _] [Hw _] Heq. congruence. Qed.

Lemma holds_value_unique (v : variant) T (x y : den T) :
  holds v T x -> holds v T y -> x = y.
Proof.
  intros [_ Hx] [_ Hy]. rewrite Hx in Hy.
  injection Hy as Hy.
  by apply (Eqdep_dec.inj_pair2_eq_dec _ ty_eq_dec) in Hy.
Qed.

Lemma destruct_holds (self : variant) T (a : den T) :
  holds self T a -> destruct self = (Ret tt, Variant Raw (active self)).
Proof.
  intros Hs. unfold destruct.
  by rewrite (apply_internal_mut_holds _ _ Hs).
Qed.

(** C4: copy assignment between different alternatives copies the
    source value before it touches the destination.  When that copy
    throws, the exception leaves the assignment as it is and the
    destination is exactly what it was: same storage, same tag. *)
Theorem copy_assign_failure_atomic (self rhs : variant) (T : ty)
    (a : den T) (e : exn) :
  holds rhs T a ->
  which self <> which rhs ->
  copy_construct T a = Throw e ->
  variant_copy_assign rhs self = (Throw e, self).
Proof.
  intros Hrhs Htag Hcopy.
  unfold variant_copy_assign, mseq.
  rewrite (apply_internal_holds _ Hrhs).
  unfold assigner, mseq, lift, get_state; simpl.
  destruct (decide (active self = active rhs)) as [Heq | _]; [ done | ].
  by rewrite Hcopy.
Qed.

(** When the copy succeeds, the destination is destroyed and holds the
    copy afterwards, under the tag of the source. *)
Lemma variant_copy_assign_other_tag (self rhs : variant) T (a : den T) :
  well_formed self -> holds rhs T a -> which self <> which rhs ->
  variant_copy_assign rhs self
  = match copy_construct T a with
    | Ret tmp =>
        (Ret tt, Variant (Holds T (fst (move_construct T tmp))) (active rhs))
    | Throw e => (Throw e, self)
    | AssertFail => (AssertFail, self)
    | Undefined => (Undefined, self)
    end.
Proof.
  intros (U & u & Hs) Hr Hne. unfold variant_copy_assign, mseq.
  rewrite (apply_internal_holds _ Hr).
  unfold assigner, mseq, lift, get_state; simpl.
  destruct (decide (active self = active rhs)) as [Heq | _]; [ done | ].
  destruct (copy_construct T a) as [tmp | e | | ]; try done.
  rewrite (destruct_holds Hs).
  unfold on_storage, construct_move, mseq, put_state, mpure; simpl.
  by destruct (move_construct T tmp).
Qed.

(** Between two variants of one alternative, the alternative's own copy
    assignment runs in place. *)
Lemma variant_copy_assign_same_tag (self rhs : variant) T (u a : den T) :
  holds self T u -> holds rhs T a -> which self = which rhs ->
  variant_copy_assign rhs self
  = match copy_assign T a u with
    | (Ret _, u') => (Ret tt, Variant (Holds T u') (active rhs))
    | (Throw e, u') => (Throw e, Variant (Holds T u') (active self))
    | (AssertFail, u') => (AssertFail, Variant (Holds T u') (active self))
    | (Undefined, u') => (Undefined, Variant (Holds T u') (active self))
    end.
Proof.
  intros Hs Hr Heq. unfold variant_copy_assign, mseq.
  rewrite (apply_internal_holds _ Hr).
  unfold assigner, mseq, lift, get_state; simpl.
  destruct (decide (active self = active rhs)) as [_ | Hne]; [ | done ].
  destruct Hs as [_ Hsto]. rewrite Hsto, reinterpret_cast_same; simpl.
  by destruct (copy_assign T a u) as [[[] | e | | ] u'].
Qed.

(** Copy construction copies the active value and takes the tag. *)
Lemma variant_copy_holds (other : variant) T (a : den T) :
  holds other T a ->
  variant_copy other
  = let? y := copy_construct T a in Ret (Variant (Holds T y) (active other)).
Proof.
  intros Ho. unfold variant_copy.
  rewrite (apply_internal_holds _ Ho).
  unfold copy_ctor, constructed, construct_copy, mseq, lift, put_state; simpl.
  by destruct (copy_construct T a).
Qed.

(** *** Equality *)

Lemma op_eq_returns (T : ty) (a b : den T) :
  engaged a -> engaged b -> exists r, op_eq T a b = Ret r.
Proof.
  destruct T as [k | k]; simpl; [ by eauto | ].
  destruct a as [[u | ]], b as [[v | ]]; simpl; try done.
  unfold wrapper_eq; simpl. by eauto.
Qed.

Lemma op_lt_returns (T : ty) (a b : den T) :
  engaged a -> engaged b -> exists r, op_lt T a b = Ret r.
Proof.
  destruct T as [k | k]; simpl; [ by eauto | ].
  destruct a as [[u | ]], b as [[v | ]]; simpl; try done.
  unfold wrapper_lt; simpl. by eauto.
Qed.

Lemma variant_eq_same_tag (x y : variant) T (a b : den T) :
  holds x T a -> holds y T b -> which x = which y ->
  variant_eq x y = op_eq T a b.
Proof.
  intros Hx Hy Htag. unfold variant_eq.
  destruct (decide (active x = active y)) as [_ | Hne]; [ | done ].
  rewrite (apply_internal_holds _ Hy).
  destruct Hx as [_ Hsto]. unfold equals, mseq, lift; simpl.
  rewrite Hsto, reinterpret_cast_same; simpl.
  by destruct (op_eq T a b).
Qed.

Lemma variant_eq_other_tag (x y : variant) :
  which x <> which y -> variant_eq x y = Ret false.
Proof.
  intros Hne. unfold variant_eq.
  by destruct (decide (active x = active y)).
Qed.

(** Two variants that compare equal hold the same alternative, with
    values that compare equal. *)
Lemma variant_eq_true_holds (x y : variant) :
  well_formed x -> well_formed y -> variant_eq x y = Ret true ->
  which x = which y /\
  exists T a b, holds x T a /\ holds y T b /\ op_eq T a b = Ret true.
Proof.
  intros (Tx & a & Hx) (Ty & b & Hy) Heq.
  destruct (decide (which x = which y)) as [Htag | Hne].
  - split; [ done | ].
    pose proof (holds_type_unique Hx Hy Htag) as ->.
    exists Ty, a, b. by rewrite <- (variant_eq_same_tag Hx Hy Htag).
  - by rewrite variant_eq_other_tag in Heq.
Qed.

(** C2: [x == y] is true exactly when the two discriminators are equal
    and the two active values are equal by the [==] of their type; the
    comparison returns a truth value as long as neither side holds a
    wrapper that was moved from. *)
Theorem variant_eq_iff (x y : variant) :
  well_formed x -> well_formed y ->
  (variant_eq x y = Ret true <->
     which x = which y /\
     exists T a b, holds x T a /\ holds y T b /\ op_eq T a b = Ret true) /\
  (forall Tx Ty (a : den Tx) (b : den Ty),
     holds x Tx a -> holds y Ty b -> engaged a -> engaged b ->
     exists r, variant_eq x y = Ret r).
Proof.
  intros Wx Wy. split; [ split | ].
  - by apply variant_eq_true_holds.
  - intros (Htag & T & a' & b' & Hx' & Hy' & Hop).
    by rewrite (variant_eq_same_tag Hx' Hy' Htag).
  - intros Tx' Ty' a' b' Hx' Hy' Ha Hb.
    destruct (decide (which x = which y)) as [Htag | Hne].
    + pose proof (holds_type_unique Hx' Hy' Htag) as ->.
      rewrite (variant_eq_same_tag Hx' Hy' Htag).
      by apply op_eq_returns.
    + rewrite variant_eq_other_tag by done. by eauto.
Qed.

(** *** Ordering *)

Lemma variant_lt_same_tag (x y : variant) T (a b : den T) :
  holds x T a -> holds y T b -> which x = which y ->
  variant_lt x y = op_lt T a b.
Proof.
  intros Hx Hy Htag. unfold variant_lt.
  destruct (decide (active x = active y)) as [_ | Hne]; [ | done ].
  rewrite (apply_internal_holds _ Hy).
  destruct Hx as [_ Hsto]. unfold less_than, mseq, lift; simpl.
  rewrite Hsto, reinterpret_cast_same; simpl.
  by destruct (op_lt T a b).
Qed.

Lemma variant_lt_other_tag (x y : variant) :
  which x <> which y ->
  variant_lt x y = Ret (bool_decide (which x < which y)).
Proof.
  intros Hne. unfold variant_lt.
  by destruct (decide (active x = active y)).
Qed.

Lemma engaged_payload (T : ty) (a : den T) :
  engaged a -> exists u, payload a = Some u.
Proof.
  destruct T as [k | k]; simpl; [ by eauto | ].
  destruct a as [[u | ]]; simpl; [ by eauto | done ].
Qed.

Lemma op_lt_payload (T : ty) (a b : den T) u v :
  payload a = Some u -> payload b = Some v ->
  op_lt T a b = Ret (plain_lt (unwrapped T) u v).
Proof.
  destruct T as [k | k]; simpl.
  - by intros [= ->] [= ->].
  - destruct a as [ia], b as [ib]; simpl. by intros -> ->.
Qed.

Lemma op_eq_payload (T : ty) (a b : den T) u v :
  payload a = Some u -> payload b = Some v ->
  op_eq T a b = Ret (plain_eq (unwrapped T) u v).
Proof.
  destruct T as [k | k]; simpl.
  - by intros [= ->] [= ->].
  - destruct a as [ia], b as [ib]; simpl. by intros -> ->.
Qed.

Lemma holds_declared (v : variant) T (x : den T) : holds v T x -> T ∈ Ts.
Proof. intros [Hlook _]. by eapply list_elem_of_lookup_2. Qed.

(** Three variants of one alternative compare as their payloads do. *)
Lemma same_alternative_order (x y z : variant) T (a b c : den T) u v w :
  holds x T a -> holds y T b -> holds z T c ->
  payload a = Some u -> payload b = Some v -> payload c = Some w ->
  which x = which y -> which y = which z ->
  strict_total_order (unwrapped T) ->
  variant_lt x x = Ret false /\
  (variant_lt x y = Ret true -> variant_lt y z = Ret true ->
   variant_lt x z = Ret true) /\
  exists l e g,
    variant_lt x y = Ret l /\ variant_eq x y = Ret e /\
    variant_lt y x = Ret g /\ exactly_one l e g.
Proof.
  intros Hx Hy Hz Ha Hb Hc Hxy Hyz (Hirr & Htrans & Htri).
  rewrite (variant_lt_same_tag Hx Hx eq_refl), (op_lt_payload T a a Ha Ha).
  rewrite (variant_lt_same_tag Hx Hy Hxy), (op_lt_payload T a b Ha Hb).
  rewrite (variant_lt_same_tag Hy Hz Hyz), (op_lt_payload T b c Hb Hc).
  rewrite (variant_lt_same_tag Hx Hz (eq_trans Hxy Hyz)),
    (op_lt_payload T a c Ha Hc).
  rewrite (variant_eq_same_tag Hx Hy Hxy), (op_eq_payload T a b Ha Hb).
  rewrite (variant_lt_same_tag Hy Hx (eq_sym Hxy)), (op_lt_payload T b a Hb Ha).
  split; [ by rewrite Hirr | split ].
  - intros [= Huv] [= Hvw]. by rewrite (Htrans _ _ _ Huv Hvw).
  - eexists _, _, _. do 3 (split; [ reflexivity | ]).
    unfold exactly_one. specialize (Htri u v).
    destruct (plain_lt (unwrapped T) u v) eqn:Huv,
             (plain_lt (unwrapped T) v u) eqn:Hvu,
             (plain_eq (unwrapped T) u v) eqn:Heq;
      try tauto;
      try (pose proof (Htrans _ _ _ Huv Hvu) as Huu; rewrite Hirr in Huu;
           done);
      try (destruct Htri as [Htri _]; specialize (Htri eq_refl);
           destruct Htri; done);
      try (destruct Htri as [_ Htri];
           specialize (Htri (conj eq_refl eq_refl)); done).
Qed.

Lemma variant_lt_irrefl (x : variant) :
  usable x ->
  (forall T, T ∈ Ts -> strict_total_order (unwrapped T)) ->
  variant_lt x x = Ret false.
Proof.
  intros (T & a & Hx & Ha) Hord.
  destruct (engaged_payload _ _ Ha) as [u Hu].
  by destruct (same_alternative_order Hx Hx Hx Hu Hu Hu eq_refl eq_refl
                 (Hord _ (holds_declared Hx))) as [? _].
Qed.

Lemma variant_lt_trichotomy (x y : variant) :
  usable x -> usable y ->
  (forall T, T ∈ Ts -> strict_total_order (unwrapped T)) ->
  exists l e g,
    variant_lt x y = Ret l /\ variant_eq x y = Ret e /\
    variant_lt y x = Ret g /\ exactly_one l e g.
Proof.
  intros (Tx & a & Hx & Ha) (Ty & b & Hy & Hb) Hord.
  destruct (decide (which x = which y)) as [Htag | Hne].
  - pose proof (holds_type_unique Hx Hy Htag) as ->.
    destruct (engaged_payload _ _ Ha) as [u Hu].
    destruct (engaged_payload _ _ Hb) as [v Hv].
    by destruct (same_alternative_order Hx Hy Hy Hu Hv Hv Htag eq_refl
                   (Hord _ (holds_declared Hx))) as (_ & _ & ?).
  - exists (bool_decide (which x < which y)), false,
           (bool_decide (which y < which x)).
    rewrite !variant_lt_other_tag, variant_eq_other_tag by done.
    do 3 (split; [ done | ]). unfold exactly_one.
    destruct (decide (which x < which y)).
    + rewrite bool_decide_true, bool_decide_false by lia. tauto.
    + rewrite bool_decide_false, bool_decide_true by lia. tauto.
Qed.

Lemma variant_lt_trans (x y z : variant) :
  usable x -> usable y -> usable z ->
  (forall T, T ∈ Ts -> strict_total_order (unwrapped T)) ->
  variant_lt x y = Ret true -> variant_lt y z = Ret true ->
  variant_lt x z = Ret true.
Proof.
  intros (Tx & a & Hx & Ha) (Ty & b & Hy & Hb) (Tz & c & Hz & Hc) Hord.
  destruct (decide (which x = which y)) as [Hxy | Hxy],
           (decide (which y = which z)) as [Hyz | Hyz].
  - pose proof (holds_type_unique Hx Hy Hxy) as ->.
    pose proof (holds_type_unique Hy Hz Hyz) as ->.
    destruct (engaged_payload _ _ Ha) as [u Hu].
    destruct (engaged_payload _ _ Hb) as [v Hv].
    destruct (engaged_payload _ _ Hc) as [w Hw].
    by destruct (same_alternative_order Hx Hy Hz Hu Hv Hw Hxy Hyz
                   (Hord _ (holds_declared Hx))) as (_ & ? & _).
  - intros _. rewrite !variant_lt_other_tag by congruence.
    by rewrite Hxy.
  - intros Hlt _. rewrite variant_lt_other_tag in Hlt |- * by congruence.
    by rewrite <- Hyz.
  - rewrite !(variant_lt_other_tag x y), !(variant_lt_other_tag y z) by done.
    intros [= Hlt1%bool_decide_eq_true] [= Hlt2%bool_decide_eq_true].
    rewrite variant_lt_other_tag by lia.
    by rewrite bool_decide_true by lia.
Qed.

(** C3: [x < y] is decided by the discriminators when they differ and
    by the [<] of the common alternative when they are equal.  Across
    pairwise distinct discriminators the order is transitive whatever
    the alternatives are; when [==] and [<] of every alternative form a
    strict total order, so do [==] and [<] of the variant, and the
    operators derived from them are the usual ones. *)
Theorem variant_lt_total_order (x y z : variant) :
  (which x <> which y ->
   variant_lt x y = Ret (bool_decide (which x < which y))) /\
  (forall T a b, holds x T a -> holds y T b -> which x = which y ->
                 variant_lt x y = op_lt T a b) /\
  (which x <> which y -> which y <> which z -> which x <> which z ->
   variant_lt x y = Ret true -> variant_lt y z = Ret true ->
   variant_lt x z = Ret true) /\
  (usable x -> usable y -> usable z ->
   (forall T, T ∈ Ts -> strict_total_order (unwrapped T)) ->
   variant_lt x x = Ret false /\
   (variant_lt x y = Ret true -> variant_lt y z = Ret true ->
    variant_lt x z = Ret true) /\
   exists l e g,
     variant_lt x y = Ret l /\ variant_eq x y = Ret e /\
     variant_lt y x = Ret g /\ exactly_one l e g /\
     variant_ne x y = Ret (l || g) /\ variant_gt x y = Ret g /\
     variant_le x y = Ret (l || e) /\ variant_ge x y = Ret (g || e)).
Proof.
  split; [ apply variant_lt_other_tag | ].
  split; [ intros T a b; apply variant_lt_same_tag | ].
  split.
  - intros Hxy Hyz Hxz.
    rewrite (variant_lt_other_tag x y), (variant_lt_other_tag y z),
      (variant_lt_other_tag x z) by done.
    intros [= Hlt1%bool_decide_eq_true] [= Hlt2%bool_decide_eq_true].
    by rewrite bool_decide_true by lia.
  - intros Ux Uy Uz Hord.
    split; [ by apply variant_lt_irrefl | ].
    split; [ by apply variant_lt_trans | ].
    destruct (variant_lt_trichotomy Ux Uy Hord) as (l & e & g & Hl & He & Hg & Hone).
    exists l, e, g. do 4 (split; [ done | ]).
    unfold variant_ne, variant_gt, variant_le, variant_ge.
    rewrite Hl, He, Hg; simpl.
    by destruct Hone as [(-> & -> & ->) | [(-> & -> & ->) | (-> & -> & ->)]].
Qed.

(** *** Hashing *)

Lemma hash_presents (v : variant) (b : base) (x : bden b) :
  presents v (existT (Plain b) (Live x)) -> hash v = Ret (plain_hash b x).
Proof.
  intros Hp. unfold hash, visit, apply_visitor_n, apply_visitor, expose.
  simpl. by rewrite (apply_external_presents _ _ Hp).
Qed.

Lemma presents_plain (v : variant) (a : arg) :
  presents v a -> exists b x, a = existT (Plain b) (Live x).
Proof. intros [(b & x & _ & ->) | (b & x & _ & ->)]; by eauto. Qed.

(** Two equal values of one type are presented as two equal plain
    values. *)
Lemma op_eq_presents (v1 v2 : variant) T (a b : den T) :
  holds v1 T a -> holds v2 T b -> op_eq T a b = Ret true ->
  exists u w,
    presents v1 (existT (Plain (unwrapped T)) (Live u)) /\
    presents v2 (existT (Plain (unwrapped T)) (Live w)) /\
    plain_eq (unwrapped T) u w = true.
Proof.
  destruct T as [k | k]; simpl; intros H1 H2 Heq.
  - exists a, b. injection Heq as Heq.
    split; [ left; by eauto | split; [ left; by eauto | done ] ].
  - destruct a as [[u | ]], b as [[w | ]]; try done.
    exists u, w. injection Heq as Heq.
    split; [ right; by eauto | split; [ right; by eauto | done ] ].
Qed.

(** C7: the hash of a variant is [std::hash] of the value it presents,
    whatever its discriminator: two variants that present the same
    value hash alike.  When [std::hash] of every alternative agrees
    with its [==], equal variants have equal hashes. *)
Theorem hash_of_active_value :
  (forall v b x,
     presents v (existT (Plain b) (Live x)) ->
     hash v = Ret (plain_hash b x)) /\
  (forall v w a, presents v a -> presents w a -> hash v = hash w) /\
  ((forall T, T ∈ Ts -> hash_respects_eq (unwrapped T)) ->
   forall v1 v2,
     well_formed v1 -> well_formed v2 -> variant_eq v1 v2 = Ret true ->
     exists h, hash v1 = Ret h /\ hash v2 = Ret h).
Proof.
  split; [ apply hash_presents | split ].
  - intros v w a Hv Hw.
    destruct (presents_plain Hv) as (b & x & ->).
    by rewrite (hash_presents Hv), (hash_presents Hw).
  - intros Hhash v1 v2 W1 W2 Heq.
    apply variant_eq_true_holds in Heq as (_ & T & a & b & H1 & H2 & Hop);
      [ | done | done ].
    destruct (op_eq_presents H1 H2 Hop) as (u & w & P1 & P2 & Huw).
    exists (plain_hash (unwrapped T) u).
    rewrite (hash_presents P1), (hash_presents P2).
    by rewrite (Hhash T (holds_declared H1) u w Huw).
Qed.

(** *** N-ary visitation *)

Lemma fmap_expose (vs : list variant) : expose <$> vs = vs.
Proof. apply list_fmap_id. Qed.

Lemma apply_visitor_n_presents {S R} (vs : list variant) (args : list arg) :
  Forall2 presents vs args ->
  forall (visitor : Visitor S R) (v : variant) (a : arg),
    presents v a ->
    apply_visitor_n vs visitor v = visitor (projT1 a) (projT2 a) args.
Proof.
  induction 1 as [ | v' a' vs' args' Hv' _ IH ]; intros visitor v a Hv.
  - simpl. unfold apply_visitor. by apply apply_external_presents.
  - simpl. rewrite (IH (binary_visitor visitor v) v' a' Hv').
    unfold binary_visitor. rewrite <- sigT_eta.
    by apply apply_external_presents.
Qed.

(** C8: visiting several variants, all of one variant type here, calls
    the visitor once, on the values that the variants present, in the
    order of the arguments.  The dispatch is curried: the visitor and the
    first variant are bound into a [binary_visitor], which is dispatched
    over the remaining variants and, called with their values, dispatches
    over the variant it holds. *)
Theorem visit_receives_active_values {S R} (visitor : Visitor S R)
    (v : variant) (vs : list variant) (a : arg) (args : list arg) :
  presents v a ->
  Forall2 presents vs args ->
  visit visitor v vs = visitor (projT1 a) (projT2 a) args /\
  (forall v' vs',
     apply_visitor_n (v' :: vs') visitor v
     = apply_visitor_n vs' (binary_visitor visitor v) v') /\
  (forall T x rest,
     binary_visitor visitor v T x rest
     = visitor (projT1 a) (projT2 a) (existT T x :: rest)).
Proof.
  intros Hv Hvs. split; [ | split ].
  - unfold visit, expose at 2. rewrite fmap_expose.
    by apply apply_visitor_n_presents.
  - reflexivity.
  - intros T x rest. unfold binary_visitor.
    by apply apply_external_presents.
Qed.

(** *** Moves *)

Lemma variant_move_holds (other : variant) T (a : den T) :
  holds other T a ->
  variant_move other
  = (Ret (Variant (Holds T (fst (move_construct T a))) (active other)),
     Variant (Holds T (snd (move_construct T a))) (active other)).
Proof.
  intros Ho. unfold variant_move.
  rewrite (apply_internal_mut_holds _ _ Ho).
  unfold move_ctor, construct_move, mseq, lift, put_state, mpure; simpl.
  by destruct (move_construct T a) as [y a'].
Qed.

(** Move assignment compiles for the variants without a wrapped
    alternative, and for no others. *)
Lemma move_assign_compiles :
  forallb move_assigner_asserts Ts = true <-> forall b, Wrapped b ∉ Ts.
Proof.
  rewrite forallb_forall. split.
  - intros Hall b Hin%list_elem_of_In. by specialize (Hall _ Hin).
  - intros Hnone [b | b] Hin%list_elem_of_In; [ done | ].
    by destruct (Hnone b).
Qed.

Lemma move_assign_rejected (self rhs : variant) (b : base) :
  Wrapped b ∈ Ts -> variant_move_assign self rhs = None.
Proof.
  intros Hin. unfold variant_move_assign.
  destruct (forallb move_assigner_asserts Ts) eqn:Hall; [ | done ].
  by destruct (proj1 move_assign_compiles Hall b).
Qed.

Lemma variant_move_assign_other_tag (self rhs : variant) T (a : den T) :
  (forall b, Wrapped b ∉ Ts) ->
  well_formed self -> holds rhs T a -> which self <> which rhs ->
  variant_move_assign self rhs
  = Some (Ret tt,
          (Variant (Holds T (fst (move_construct T a))) (active rhs),
           Variant (Holds T (snd (move_construct T a))) (active rhs))).
Proof.
  intros Hnone (U & u & Hs) Hr Hne.
  unfold variant_move_assign. rewrite (proj2 move_assign_compiles Hnone).
  rewrite (apply_internal_mut_holds _ _ Hr).
  unfold move_assigner, mseq, lift, get_state; simpl.
  destruct (decide (active self = active rhs)) as [Heq | _]; [ done | ].
  rewrite (destruct_holds Hs).
  unfold on_storage, construct_move, mseq, put_state, mpure; simpl.
  by destruct (move_construct T a) as [y a'].
Qed.

Lemma variant_move_assign_same_tag (self rhs : variant) T (u a : den T) :
  (forall b, Wrapped b ∉ Ts) ->
  holds self T u -> holds rhs T a -> which self = which rhs ->
  exists b, T = Plain b /\
  variant_move_assign self rhs
  = Some (Ret tt,
          (Variant (Holds T (fst (snd (move_assign T u a)))) (active rhs),
           Variant (Holds T (snd (snd (move_assign T u a)))) (active rhs))).
Proof.
  intros Hnone Hs Hr Heq.
  destruct T as [b | b];
    [ | exfalso; exact (Hnone b (holds_declared Hr)) ].
  exists b. split; [ done | ].
  unfold variant_move_assign. rewrite (proj2 move_assign_compiles Hnone).
  rewrite (apply_internal_mut_holds _ _ Hr).
  unfold move_assigner, mseq, lift, get_state; simpl.
  destruct (decide (active self = active rhs)) as [_ | Hne]; [ | done ].
  destruct Hs as [_ Hsto]. rewrite Hsto, reinterpret_cast_same; simpl.
  by destruct (plain_move_assign b u a) as [u' a'].
Qed.

(** C10: a move never writes the tag of its source.  After a move
    construction the donor has the tag it had and still holds a live
    object of the same alternative, the one that the alternative's move
    constructor left behind.  Move assignment compiles for the variants
    without a wrapped alternative: there it returns, and the donor has
    the tag it had and holds a live object of the same alternative.  For
    a variant with a wrapped alternative the operator is rejected by the
    assertion on the wrapper's move assignment; no program runs it. *)
Theorem move_keeps_source_tag (other : variant) (T : ty) (a : den T) :
  holds other T a ->
  (exists self' other',
     variant_move other = (Ret self', other') /\
     which other' = which other /\
     holds other' T (snd (move_construct T a)) /\
     holds self' T (fst (move_construct T a))) /\
  (forall self, well_formed self ->
     (forall b, Wrapped b ∉ Ts) ->
     exists self' other',
       variant_move_assign self other = Some (Ret tt, (self', other')) /\
       which other' = which other /\
       which self' = which other /\
       (exists a', holds other' T a') /\
       (exists a', holds self' T a')) /\
  (forall self b, Wrapped b ∈ Ts -> variant_move_assign self other = None).
Proof.
  intros Ho. pose proof Ho as [Hlook Hsto]. split; [ | split ].
  - rewrite (variant_move_holds Ho). by eexists _, _.
  - intros self Hself Hnone.
    destruct (decide (which self = which other)) as [Heq | Hne].
    + destruct Hself as (U & u & Hs).
      pose proof (holds_type_unique Hs Ho Heq) as ->.
      destruct (variant_move_assign_same_tag Hnone Hs Ho Heq)
        as (b & _ & ->).
      eexists _, _. split; [ reflexivity | ].
      split; [ done | ]. split; [ done | ]. split; by eexists.
    + rewrite (variant_move_assign_other_tag Hnone Hself Ho Hne).
      eexists _, _. split; [ reflexivity | ].
      split; [ done | ]. split; [ done | ]. split; by eexists.
  - intros self b Hin. by apply (move_assign_rejected _ _ Hin).
Qed.

(** *** [make] *)

Lemma make_plain (t : tag) (b : base) (d : bden b) :
  Ts !! t = Some (Plain b) ->
  plain_default b = Ret d ->
  make t = Ret (Variant (Holds (Plain b) (fst (plain_move b d))) t).
Proof.
  intros Hlook Hdef. unfold make, factory_ctor.
  erewrite visit_impl_in_range by exact Hlook.
  unfold invoke, default_ctor, constructed, construct_move, mseq, lift,
    put_state, mpure; simpl.
  rewrite Hdef. by destruct (plain_move b d).
Qed.

Lemma make_wrapped (t : tag) (b : base) :
  Ts !! t = Some (Wrapped b) -> make t = Undefined.
Proof.
  intros Hlook. unfold make, factory_ctor.
  erewrite visit_impl_in_range by exact Hlook. reflexivity.
Qed.

Lemma make_out_of_range (t : tag) :
  length Ts <= t ->
  make t = if NDEBUG then Undefined else AssertFail.
Proof.
  intros Hge. unfold make, factory_ctor.
  rewrite visit_impl_out_of_range by done. by destruct NDEBUG.
Qed.

End VariantFacts.

(** ** Construction from a value *)

Section ConstructionFacts.
Context `{Alternatives} {inst : Instantiation}.

(** The overload that sets tag [j] takes a [U] exactly when [U] is
    declared at [j] and not before: an overload for a repeated type is
    hidden by the one of the first declaration. *)
Lemma elem_of_initializer (l : list ty) (k : nat) (U : ty) (j : nat) :
  (U, j) ∈ initializer k l <->
  k <= j /\ l !! (j - k) = Some U /\ forall m, m < j - k -> l !! m <> Some U.
Proof.
  revert k. induction l as [ | T l IH ]; intros k; simpl.
  - split; [ by intros ?%elem_of_nil | by intros (_ & ? & _) ].
  - rewrite elem_of_cons, list_elem_of_filter, IH. simpl. split.
    + intros [[= -> ->] | (Hne & Hle & Hlook & Hfirst)].
      * rewrite Nat.sub_diag. split; [ lia | split; [ done | lia ] ].
      * replace (j - k) with (S (j - S k)) by lia.
        split; [ lia | split; [ done | ] ].
        intros [ | m] Hm; simpl; [ congruence | apply Hfirst; lia ].
    + intros (Hle & Hlook & Hfirst).
      destruct (decide (j = k)) as [-> | Hjk].
      * rewrite Nat.sub_diag in Hlook. left. simpl in Hlook. congruence.
      * right. replace (j - k) with (S (j - S k)) in * by lia.
        simpl in Hlook. split; [ | split; [ lia | split; [ done | ] ] ].
        -- intros ->. by apply (Hfirst 0); [ lia | ].
        -- intros m Hm. apply (Hfirst (S m)). lia.
Qed.

Lemma elem_of_initializer_0 (U : ty) (j : nat) :
  (U, j) ∈ initializer 0 Ts <-> declared_at U j.
Proof.
  rewrite elem_of_initializer, Nat.sub_0_r. unfold declared_at.
  split; [ by intros (_ & ? & ?) | intros [? ?]; split; [ lia | done ] ].
Qed.

Lemma declared_at_unique (U : ty) (i j : nat) :
  declared_at U i -> declared_at U j -> i = j.
Proof.
  intros [Hi Hfi] [Hj Hfj].
  destruct (Nat.lt_trichotomy i j) as [Hlt | [-> | Hlt]]; [ | done | ].
  - by destruct (Hfj i Hlt).
  - by destruct (Hfi j Hlt).
Qed.

(** Every declared type has a first declaration. *)
Lemma declared_at_exists (U : ty) :
  U ∈ Ts -> exists i, declared_at U i.
Proof.
  intros Hin.
  destruct (list_find (fun T => T = U) Ts) as [[i T] | ] eqn:Hfind.
  - apply list_find_Some in Hfind as (Hlook & -> & Hfirst).
    exists i. split; [ done | ].
    intros j Hj Hlook'. by apply (Hfirst j U).
  - apply list_find_None in Hfind.
    rewrite Forall_forall in Hfind. by destruct (Hfind U Hin).
Qed.

(** The identity is the only conversion of cost 0. *)
Lemma implicit_conversion_identity (A P : ty) :
  implicit_conversion A P = Some 0 <-> A = P.
Proof.
  destruct A as [a | a], P as [b | b]; simpl.
  - destruct (decide (a = b)) as [-> | Hne]; [ done | ].
    destruct (plain_conversion a b); simpl;
      split; (done || congruence).
  - destruct (is_convertible a b); split; done.
  - split; done.
  - destruct (decide (a = b)) as [-> | Hne]; [ done | ].
    split; (done || congruence).
Qed.

Lemma elem_of_viable (A : ty) (overloads : list (ty * nat)) cost c :
  (cost, c) ∈ viable A overloads <->
  c ∈ overloads /\ implicit_conversion A c.1 = Some cost.
Proof.
  unfold viable. rewrite list_elem_of_omap. split.
  - intros (c' & Hin & Hc').
    destruct (implicit_conversion A c'.1) as [cost' | ] eqn:Hconv;
      simpl in Hc'; [ | done ].
    by injection Hc' as <- <-.
  - intros [Hin Hconv]. exists c. by rewrite Hconv.
Qed.

Lemma better_than_others_spec (vs : list (nat * (ty * nat))) c :
  better_than_others vs c = true <->
  forall c', c' ∈ vs -> c'.2 = c.2 \/ c.1 < c'.1.
Proof.
  unfold better_than_others.
  rewrite <- Is_true_true, forallb_True, Forall_forall.
  apply forall_proper; intros c'. apply forall_proper; intros _.
  rewrite orb_True, bool_decide_spec, Is_true_true, Nat.ltb_lt. done.
Qed.

(** Overload resolution selects [c] exactly when [c] is viable and its
    conversion costs strictly less than that of every other viable
    overload. *)
Lemma overload_resolution_spec (A : ty) (overloads : list (ty * nat)) c :
  overload_resolution A overloads = Some c <->
  c ∈ overloads /\
  exists cost,
    implicit_conversion A c.1 = Some cost /\
    forall c' cost', c' ∈ overloads -> c' <> c ->
                     implicit_conversion A c'.1 = Some cost' -> cost < cost'.
Proof.
  unfold overload_resolution. split.
  - intros Hsel.
    destruct (head _) as [[cost c0] | ] eqn:Hhead; simpl in Hsel; [ | done ].
    injection Hsel as ->.
    apply head_Some_elem_of, list_elem_of_filter in Hhead as [Hbest Hin].
    apply elem_of_viable in Hin as [Hin Hconv].
    split; [ done | ]. exists cost. split; [ done | ].
    intros c' cost' Hin' Hne Hconv'.
    rewrite better_than_others_spec in Hbest.
    destruct (Hbest (cost', c')) as [Heq | Hlt]; simpl in *;
      [ by apply elem_of_viable | done | done ].
  - intros (Hin & cost & Hconv & Hbest).
    set (vs := viable A overloads).
    assert (Hc : (cost, c) ∈ filter
                   (fun c => better_than_others vs c = true) vs).
    { apply list_elem_of_filter. split; [ | by apply elem_of_viable ].
      apply better_than_others_spec. intros [cost' c'] Hin'; simpl.
      apply elem_of_viable in Hin' as [Hin' Hconv'].
      destruct (decide (c' = c)) as [-> | Hne]; [ by left | right ].
      by eapply Hbest. }
    destruct (filter _ vs) as [ | [cost0 c0] rest] eqn:Hfilter;
      [ by apply elem_of_nil in Hc | ].
    simpl. f_equal.
    assert (Hfst : (cost0, c0) ∈ filter
                   (fun c => better_than_others vs c = true) vs)
      by (rewrite Hfilter; left).
    apply list_elem_of_filter in Hfst as [Hbest0 Hin0].
    apply elem_of_viable in Hin0 as [Hin0 Hconv0].
    rewrite better_than_others_spec in Hbest0.
    destruct (decide (c0 = c)) as [-> | Hne]; [ done | ].
    destruct (Hbest0 (cost, c)) as [Heq | Hlt]; simpl in *;
      [ by apply elem_of_viable | done | ].
    pose proof (Hbest c0 cost0 Hin0 Hne Hconv0). lia.
Qed.

Lemma selected_overload (A T : ty) (i : nat) :
  overload_resolution A (initializer 0 Ts) = Some (T, i) <->
  declared_at T i /\
  exists cost,
    implicit_conversion A T = Some cost /\
    forall U cost', U ∈ Ts -> U <> T ->
                    implicit_conversion A U = Some cost' -> cost < cost'.
Proof.
  rewrite overload_resolution_spec, elem_of_initializer_0. simpl.
  split; intros (Hdecl & cost & Hconv & Hbest);
    (split; [ done | ]); exists cost; (split; [ done | ]).
  - intros U cost' Hin Hne Hconv'.
    destruct (declared_at_exists Hin) as [j Hj].
    apply (Hbest (U, j) cost'); [ | congruence | done ].
    by apply elem_of_initializer_0.
  - intros [U j] cost' Hin Hne Hconv'; simpl in *.
    apply elem_of_initializer_0 in Hin.
    apply (Hbest U cost'); [ | | done ].
    + destruct Hin as [Hlook _]. by eapply list_elem_of_lookup_2.
    + intros ->. apply Hne. f_equal. by eapply declared_at_unique.
Qed.

Lemma variant_from_value_selected (A T : ty) (i : nat)
    (vc : value_category) (x : den A) :
  overload_resolution A (initializer 0 Ts) = Some (T, i) ->
  variant_from_value A vc x
  = Some (let? y := initial_value A T vc x in Ret (Variant (Holds T y) i)).
Proof.
  intros Hsel. unfold variant_from_value, initial_value. rewrite Hsel.
  f_equal. destruct (decide (A = T)) as [-> | Hne]; simpl.
  - destruct vc; simpl.
    + unfold initialize_lvalue, constructed, construct_copy, mseq, lift.
      by destruct (copy_construct T x).
    + unfold initialize_rvalue, constructed, construct_move, mseq.
      by destruct (move_construct T x).
  - destruct (convert A T vc x) as [tmp | | | ]; simpl; try done.
    unfold initialize_rvalue, constructed, construct_move, mseq.
    by destruct (move_construct T tmp).
Qed.

Lemma variant_from_value_rejected (A : ty) (vc : value_category)
    (x : den A) :
  variant_from_value A vc x = None <->
  overload_resolution A (initializer 0 Ts) = None.
Proof.
  unfold variant_from_value.
  by destruct (overload_resolution A (initializer 0 Ts)) as [[T i] | ].
Qed.

(** Either [T] beats every other alternative, or one of them is at
    least as good a match. *)
Lemma best_or_rival (A T : ty) (cost : nat) :
  (forall U cost', U ∈ Ts -> U <> T ->
                   implicit_conversion A U = Some cost' -> cost < cost') \/
  (exists U cost', U ∈ Ts /\ U <> T /\
                   implicit_conversion A U = Some cost' /\ cost' <= cost).
Proof.
  induction Ts as [ | V l IH ].
  - left. by intros U cost' ?%elem_of_nil.
  - destruct IH as [IH | (U & cost' & Hin & Hne & Hconv & Hle)].
    + destruct (decide (V = T)) as [-> | Hne].
      { left. intros U cost' [-> | Hin]%elem_of_cons; [ done | by apply IH ]. }
      destruct (implicit_conversion A V) as [cv | ] eqn:Hcv.
      * destruct (decide (cost < cv)) as [Hlt | Hge].
        -- left. intros U cost' [-> | Hin]%elem_of_cons;
             [ intros _; congruence | by apply IH ].
        -- right. exists V, cv.
           split; [ by left | split; [ done | split; [ done | lia ] ] ].
      * left. intros U cost' [-> | Hin]%elem_of_cons;
          [ intros _; congruence | by apply IH ].
    + right. exists U, cost'. split; [ by right | done ].
Qed.

(** C5, as the code has it: the alternative is chosen by overload
    resolution over one pair of [initialize] overloads per alternative
    type.  The construction compiles exactly when one alternative is a
    strictly better match for the argument than every other alternative
    the argument converts to, whatever the order of declaration; the
    order only tells which tag a repeated type gets, the first one.
    Whether it compiles depends on the types alone.  When it does, the
    selected alternative is constructed, from the argument or from the
    converted temporary, and the tag is its index; a failure of that
    construction is the outcome of the whole. *)
Theorem construction_selects_best_match (A : ty) (vc : value_category)
    (x : den A) :
  (forall T i,
     overload_resolution A (initializer 0 Ts) = Some (T, i) <->
     declared_at T i /\
     exists cost,
       implicit_conversion A T = Some cost /\
       forall U cost', U ∈ Ts -> U <> T ->
                       implicit_conversion A U = Some cost' ->
                       cost < cost') /\
  (variant_from_value A vc x = None <->
   overload_resolution A (initializer 0 Ts) = None) /\
  (variant_from_value A vc x = None <->
   forall T cost,
     T ∈ Ts -> implicit_conversion A T = Some cost ->
     exists U cost', U ∈ Ts /\ U <> T /\
                     implicit_conversion A U = Some cost' /\
                     cost' <= cost) /\
  (forall T i,
     overload_resolution A (initializer 0 Ts) = Some (T, i) ->
     variant_from_value A vc x
     = Some (let? y := initial_value A T vc x in
             Ret (Variant (Holds T y) i))).
Proof.
  split; [ apply selected_overload | ].
  split; [ apply variant_from_value_rejected | ].
  split; [ | intros T i; apply variant_from_value_selected ].
  rewrite variant_from_value_rejected. split.
  - intros Hnone T cost Hin Hconv.
    destruct (best_or_rival A T cost) as [Hbest | Hrival]; [ | done ].
    destruct (declared_at_exists Hin) as [i Hi].
    assert (Hsel : overload_resolution A (initializer 0 Ts) = Some (T, i))
      by (apply selected_overload; by eauto).
    congruence.
  - intros Hrival.
    destruct (overload_resolution A (initializer 0 Ts)) as [[T i] | ] eqn:Hsel;
      [ | done ].
    apply selected_overload in Hsel as ([Hlook _] & cost & Hconv & Hbest).
    destruct (Hrival T cost) as (U & cost' & Hin & Hne & Hconv' & Hle);
      [ by eapply list_elem_of_lookup_2 | done | ].
    pose proof (Hbest U cost' Hin Hne Hconv'). lia.
Qed.

(** *** Round trip *)

Lemma get_presents_same (v : variant) (b : base) (x : bden b) :
  presents v (existT (Plain b) (Live x)) ->
  get (Plain b) v = Ret (Some (Live x)).
Proof.
  intros Hp. unfold get, apply_visitor, expose.
  rewrite (apply_external_presents _ _ Hp). simpl.
  unfold getter, mpure; simpl.
  destruct (decide (Plain b = Plain b)) as [e | Hne]; [ | done ].
  by rewrite (proof_irrel e eq_refl).
Qed.

Lemma get_presents_other (v : variant) (b : base) (x : bden b) (U : ty) :
  presents v (existT (Plain b) (Live x)) ->
  U <> Plain b ->
  get U v = Ret None.
Proof.
  intros Hp Hne. unfold get, apply_visitor, expose.
  rewrite (apply_external_presents _ _ Hp). simpl.
  unfold getter, mpure; simpl.
  by destruct (decide (Plain b = U)) as [<- | _].
Qed.

Lemma usable_presents (v : variant) :
  usable v -> exists b x, presents v (existT (Plain b) (Live x)).
Proof.
  intros ([k | k] & a & Hv & Ha).
  - exists k, a. left. by eauto.
  - destruct a as [[x | ]]; [ | done ].
    exists k, x. right. by eauto.
Qed.

(** [get] returns on every usable variant: a pointer or null. *)
Lemma get_returns (v : variant) (U : ty) :
  usable v -> exists p, get U v = Ret p.
Proof.
  intros (b & x & Hp)%usable_presents.
  destruct (decide (U = Plain b)) as [-> | Hne].
  - rewrite (get_presents_same Hp). by eauto.
  - rewrite (get_presents_other Hp Hne). by eauto.
Qed.

Lemma construct_value_faithful (T : ty) (vc : value_category)
    (t t' : den T) :
  faithful_copies -> construct_value T vc t = Ret t' -> t' = t.
Proof.
  intros [Hcopy Hmove]. destruct T as [k | k], vc; simpl.
  - apply Hcopy.
  - intros [= <-]. apply Hmove.
  - destruct t as [[x | ]]; unfold wrapper_copy; simpl; [ | done ].
    destruct (plain_copy k x) as [y | | | ] eqn:Hy; simpl; try done.
    intros [= <-]. by rewrite (Hcopy _ _ _ Hy).
  - intros [= <-]. by destruct t.
Qed.

Lemma variant_from_alternative (T : ty) (i : nat) (vc : value_category)
    (t : den T) :
  declared_at T i ->
  variant_from_value T vc t
  = Some (let? y := construct_value T vc t in Ret (Variant (Holds T y) i)).
Proof.
  intros Hdecl.
  assert (Hsel : overload_resolution T (initializer 0 Ts) = Some (T, i)).
  { apply selected_overload. split; [ done | ].
    exists 0. split; [ by apply implicit_conversion_identity | ].
    intros U cost' _ Hne Hconv.
    destruct cost'; [ | lia ].
    apply implicit_conversion_identity in Hconv. congruence. }
  rewrite (variant_from_value_selected T vc t Hsel).
  unfold initial_value.
  destruct (decide (T = T)) as [e | Hne]; [ | done ].
  by rewrite (proof_irrel e eq_refl).
Qed.

(** C1, as the code has it.  A variant constructed from a value [t] of
    an alternative type [T] has the tag of [T]'s first declaration and
    holds [t].  If [T] is not a wrapper, [is<T>] is true, [get<T>]
    points to [t] and [get<U>] is null for every other type [U].  If
    [T] is [recursive_wrapper<X>], the variant answers for [X]: [is<X>]
    is true, [get<X>] points to the wrapped value and [get<U>] is null
    for every other [U], [T] itself included.  [get] returns, a pointer
    or null, on every variant that does not hold a wrapper that was
    moved from. *)
Theorem construct_then_get (T : ty) (i : nat) (vc : value_category)
    (t : den T) :
  faithful_copies ->
  declared_at T i ->
  returns (construct_value T vc t) = true ->
  (exists v,
     variant_from_value T vc t = Some (Ret v) /\
     which v = i /\ holds v T t /\
     match T return den T -> Prop with
     | Plain b => fun t =>
         is_ (Plain b) v = Ret true /\
         get (Plain b) v = Ret (Some (Live t)) /\
         forall U, U <> Plain b -> get U v = Ret None
     | Wrapped b => fun t =>
         forall x, item t = Some x ->
           is_ (Plain b) v = Ret true /\
           get (Plain b) v = Ret (Some (Live x)) /\
           forall U, U <> Plain b -> get U v = Ret None
     end t) /\
  (forall w U, usable w -> exists p, get U w = Ret p).
Proof.
  intros Hfaith Hdecl Hret. split; [ | intros w U; apply get_returns ].
  rewrite (variant_from_alternative vc t Hdecl).
  destruct (construct_value T vc t) as [t' | | | ] eqn:Hct; try done.
  pose proof (construct_value_faithful _ _ _ Hfaith Hct) as ->.
  simpl. eexists. split; [ reflexivity | ]. split; [ done | ].
  assert (Hv : holds (Variant (Holds T t) i) T t)
    by (split; [ apply Hdecl | done ]).
  split; [ done | ].
  destruct T as [b | b].
  - assert (Hp : presents (Variant (Holds (Plain b) t) i)
                   (existT (Plain b) (Live t))) by (left; by eauto).
    unfold is_. rewrite (get_presents_same Hp).
    split; [ done | split; [ done | ] ].
    intros U HU. by apply (get_presents_other Hp).
  - intros x Hx. destruct t as [it]; simpl in Hx; subst it.
    assert (Hp : presents (Variant (Holds (Wrapped b) (Box (Some x))) i)
                   (existT (Plain b) (Live x))) by (right; by eauto).
    unfold is_. rewrite (get_presents_same Hp).
    split; [ done | split; [ done | ] ].
    intros U HU. by apply (get_presents_other Hp).
Qed.

End ConstructionFacts.

(** ** The recursive wrapper on the heap *)

Section HeapFacts.
Context {E T : Type}.
Context (T_copy : T -> outcome E T).
Context (T_assign : T -> M E T unit).
Context (T_eq : T -> T -> bool).

Local Abbreviation heap := (gmap positive T).
Local Abbreviation wrapper := OnHeap.recursive_wrapper.

Lemma fresh_not_allocated (h : heap) : h !! fresh (dom h) = None.
Proof. apply not_elem_of_dom, is_fresh. Qed.

Lemma copy_ctor_allocates (h : heap) (src : wrapper) l x y :
  OnHeap.item src = Some l -> h !! l = Some x -> T_copy x = Ret y ->
  OnHeap.copy_ctor (E := E) T_copy src h
  = (Ret (OnHeap.Wrapper (Some (fresh (dom h)))), <[fresh (dom h) := y]> h).
Proof.
  intros Hsrc Hl Hy.
  unfold OnHeap.copy_ctor, OnHeap.get, OnHeap.deref, OnHeap.new, mseq, lift,
    mpure.
  by rewrite Hsrc, Hl, Hy.
Qed.

Lemma copy_assign_in_place (h : heap) (dst src : wrapper) ld l old x r y :
  OnHeap.item dst = Some ld -> OnHeap.item src = Some l ->
  h !! ld = Some old -> h !! l = Some x ->
  T_assign x old = (r, y) ->
  OnHeap.copy_assign T_assign dst src h
  = (match r with
     | Ret _ => Ret dst
     | Throw e => Throw e
     | AssertFail => AssertFail
     | Undefined => Undefined
     end, <[ld := y]> h).
Proof.
  intros Hdst Hsrc Hld Hl Hy.
  unfold OnHeap.copy_assign, OnHeap.assign, OnHeap.get, OnHeap.deref, mseq,
    mpure.
  rewrite Hsrc, Hl, Hdst, Hld, Hy. by destruct r.
Qed.

Lemma get_allocated (h : heap) (w : wrapper) l x :
  OnHeap.item w = Some l -> h !! l = Some x ->
  OnHeap.get (E := E) w h = (Ret x, h).
Proof.
  intros Hw Hl. unfold OnHeap.get, OnHeap.deref. by rewrite Hw, Hl.
Qed.

Lemma mutate_allocated (h : heap) (w : wrapper) l x f :
  OnHeap.item w = Some l -> h !! l = Some x ->
  OnHeap.mutate (E := E) w f h = (Ret tt, <[l := f x]> h).
Proof.
  intros Hw Hl. unfold OnHeap.mutate. by rewrite Hw, Hl.
Qed.

(** C9, as the code has it.  The copy constructor allocates: the new
    wrapper owns a location that was not allocated before, which holds
    [T]'s copy of the source's value.  Copy assignment does not
    allocate: the destination keeps the allocation it owns, and [T]'s
    copy assignment runs on the value stored there.  In both cases the
    copy's [get()] is what [T] made of the source's value and compares
    equal to it when [T]'s copies do, the source is untouched, and
    whatever is then done to the copy's value leaves the source's value
    as it was. *)
Theorem wrapper_copy_is_deep (h : heap) (src : wrapper) (l : positive)
    (x : T) :
  OnHeap.item src = Some l ->
  h !! l = Some x ->
  (forall a b, T_copy a = Ret b -> T_eq b a = true) ->
  (forall a old b, T_assign a old = (Ret tt, b) -> T_eq b a = true) ->
  (forall y, T_copy x = Ret y ->
     exists copy h',
       OnHeap.copy_ctor T_copy src h = (Ret copy, h') /\
       OnHeap.owns_fresh h copy /\
       OnHeap.item copy <> OnHeap.item src /\
       OnHeap.get (E := E) copy h' = (Ret y, h') /\
       OnHeap.get (E := E) src h' = (Ret x, h') /\
       OnHeap.eq (E := E) T_eq copy src h' = (Ret true, h') /\
       forall f, exists h'',
         OnHeap.mutate (E := E) copy f h' = (Ret tt, h'') /\
         OnHeap.get (E := E) copy h'' = (Ret (f y), h'') /\
         OnHeap.get (E := E) src h'' = (Ret x, h'')) /\
  (forall dst ld old y,
     OnHeap.item dst = Some ld -> ld <> l -> h !! ld = Some old ->
     T_assign x old = (Ret tt, y) ->
     exists h',
       OnHeap.copy_assign T_assign dst src h = (Ret dst, h') /\
       ~ OnHeap.owns_fresh h dst /\
       dom h' = dom h /\
       OnHeap.get (E := E) dst h' = (Ret y, h') /\
       OnHeap.get (E := E) src h' = (Ret x, h') /\
       OnHeap.eq (E := E) T_eq dst src h' = (Ret true, h') /\
       forall f, exists h'',
         OnHeap.mutate (E := E) dst f h' = (Ret tt, h'') /\
         OnHeap.get (E := E) dst h'' = (Ret (f y), h'') /\
         OnHeap.get (E := E) src h'' = (Ret x, h'')).
Proof.
  intros Hsrc Hl Hcopy_eq Hassign_eq. split.
  - intros y Hy. set (l' := fresh (dom h)).
    assert (Hfresh : h !! l' = None) by apply fresh_not_allocated.
    assert (Hne : l' <> l) by congruence.
    exists (OnHeap.Wrapper (Some l')), (<[l' := y]> h).
    split; [ by eapply copy_ctor_allocates | ].
    split; [ by exists l' | ].
    split; [ rewrite Hsrc; simpl; congruence | ].
    assert (Hgc : OnHeap.get (E := E) (OnHeap.Wrapper (Some l'))
                    (<[l' := y]> h) = (Ret y, <[l' := y]> h))
      by (apply (get_allocated _ _ (l := l')); [ done | apply lookup_insert_eq ]).
    assert (Hgs : OnHeap.get (E := E) src (<[l' := y]> h)
                  = (Ret x, <[l' := y]> h))
      by (apply (get_allocated _ _ Hsrc); by rewrite lookup_insert_ne).
    split; [ done | split; [ done | split ] ].
    + unfold OnHeap.eq, mseq, mpure. rewrite Hgc, Hgs.
      by rewrite (Hcopy_eq _ _ Hy).
    + intros f. exists (<[l' := f y]> (<[l' := y]> h)).
      split; [ eapply mutate_allocated; [ done | apply lookup_insert_eq ] | ].
      split.
      * apply (get_allocated _ _ (l := l')); [ done | apply lookup_insert_eq ].
      * apply (get_allocated _ _ Hsrc). by rewrite !lookup_insert_ne.
  - intros dst ld old y Hdst Hne Hld Hy.
    exists (<[ld := y]> h).
    split; [ by rewrite (copy_assign_in_place h dst src Hdst Hsrc Hld Hl Hy) | ].
    split.
    { intros (k & Hk & Hnone). rewrite Hdst in Hk. congruence. }
    split.
    { by apply dom_insert_lookup_L. }
    assert (Hgd : OnHeap.get (E := E) dst (<[ld := y]> h)
                  = (Ret y, <[ld := y]> h))
      by (apply (get_allocated _ _ Hdst); apply lookup_insert_eq).
    assert (Hgs : OnHeap.get (E := E) src (<[ld := y]> h)
                  = (Ret x, <[ld := y]> h))
      by (apply (get_allocated _ _ Hsrc); by rewrite lookup_insert_ne).
    split; [ done | split; [ done | split ] ].
    + unfold OnHeap.eq, mseq, mpure. rewrite Hgd, Hgs.
      by rewrite (Hassign_eq _ _ _ Hy).
    + intros f. exists (<[ld := f y]> (<[ld := y]> h)).
      split; [ eapply mutate_allocated; [ exact Hdst | apply lookup_insert_eq ] | ].
      split.
      * apply (get_allocated _ _ Hdst); apply lookup_insert_eq.
      * apply (get_allocated _ _ Hsrc). by rewrite !lookup_insert_ne.
Qed.

End HeapFacts.

(** ** The two views of the wrapper agree

    The variant is stated over wrappers as values.  Each operation of the
    wrapper on the heap does, seen through [as_value], what the operation
    on values does. *)

Section WrapperViews.
Context `{Alternatives}.

Lemma heap_get_refines (b : base) (h : gmap positive (bden b))
    (w : OnHeap.recursive_wrapper) :
  OnHeap.get (E := exn) w h = (wrapper_get (as_value h w), h).
Proof.
  unfold OnHeap.get, OnHeap.deref, wrapper_get, as_value; simpl.
  destruct (OnHeap.item w) as [l | ]; simpl; [ | done ].
  by destruct (h !! l).
Qed.

Lemma heap_copy_ctor_refines (b : base) (h : gmap positive (bden b))
    (src : OnHeap.recursive_wrapper) :
  outcome_map (as_value (snd (OnHeap.copy_ctor (plain_copy b) src h)))
              (fst (OnHeap.copy_ctor (plain_copy b) src h))
  = wrapper_copy b (as_value h src).
Proof.
  unfold OnHeap.copy_ctor, mseq, lift, mpure. rewrite heap_get_refines.
  unfold wrapper_copy.
  destruct (wrapper_get (as_value h src)) as [x | | | ]; simpl; try done.
  destruct (plain_copy b x) as [y | | | ]; simpl; try done.
  unfold as_value; simpl. do 2 f_equal. apply lookup_insert_eq.
Qed.

Lemma heap_move_ctor_refines (b : base) (h : gmap positive (bden b))
    (other : OnHeap.recursive_wrapper) :
  (as_value h (fst (OnHeap.move_ctor other)),
   as_value h (snd (OnHeap.move_ctor other)))
  = wrapper_move (as_value h other).
Proof. reflexivity. Qed.

Lemma heap_copy_assign_refines (b : base) (h : gmap positive (bden b))
    (dst src : OnHeap.recursive_wrapper) :
  (outcome_map (fun _ => tt)
     (fst (OnHeap.copy_assign (plain_copy_assign b) dst src h)),
   as_value (snd (OnHeap.copy_assign (plain_copy_assign b) dst src h)) dst)
  = wrapper_copy_assign b (as_value h src) (as_value h dst).
Proof.
  unfold OnHeap.copy_assign, wrapper_copy_assign, mseq, lift, mpure.
  rewrite heap_get_refines.
  destruct (wrapper_get (as_value h src)) as [x | | | ]; simpl; try done.
  unfold OnHeap.assign, as_value; simpl.
  destruct (OnHeap.item dst) as [l | ]; simpl; [ | done ].
  destruct (h !! l) as [old | ] eqn:Hold; simpl; [ | by rewrite Hold ].
  destruct (plain_copy_assign b x old) as [r new_]; simpl.
  destruct r as [[] | | | ]; simpl; f_equal; f_equal; apply lookup_insert_eq.
Qed.

Lemma heap_eq_refines (b : base) (h : gmap positive (bden b))
    (x y : OnHeap.recursive_wrapper) :
  OnHeap.eq (E := exn) (plain_eq b) x y h
  = (wrapper_eq b (as_value h x) (as_value h y), h).
Proof.
  unfold OnHeap.eq, wrapper_eq, mseq, mpure. rewrite heap_get_refines.
  destruct (wrapper_get (as_value h x)) as [u | | | ]; simpl; try done.
  rewrite heap_get_refines.
  by destruct (wrapper_get (as_value h y)).
Qed.

End WrapperViews.

(** ** More of the lifecycle *)

Section LifecycleFacts.
Context `{Alternatives} {inst : Instantiation}.

Lemma holds_eta (v : variant) T (a : den T) :
  holds v T a -> v = Variant (Holds T a) (active v).
Proof. intros [_ Hsto]. destruct v as [s t]; simpl in *. by subst. Qed.

Lemma copy_construct_faithful (T : ty) (a a' : den T) :
  faithful_copies -> copy_construct T a = Ret a' -> a' = a.
Proof. intros Hf Hc. exact (construct_value_faithful T LValue a Hf Hc). Qed.

Lemma move_construct_faithful (T : ty) (a : den T) :
  faithful_copies -> fst (move_construct T a) = a.
Proof.
  intros Hf. by apply (construct_value_faithful T RValue a Hf).
Qed.

(** The copy constructor makes a variant that is the source, tag and
    value, when the alternative's copy constructor copies faithfully; an
    exception of that constructor is the outcome, and no variant comes
    into existence. *)
Theorem variant_copy_exact (other : variant) (T : ty) (a : den T) :
  faithful_copies ->
  holds other T a ->
  variant_copy other
  = match copy_construct T a with
    | Ret _ => Ret other
    | Throw e => Throw e
    | AssertFail => AssertFail
    | Undefined => Undefined
    end.
Proof.
  intros Hf Ho. rewrite (variant_copy_holds Ho).
  destruct (copy_construct T a) as [y | e | | ] eqn:Hy; simpl; try done.
  rewrite (copy_construct_faithful _ _ Hf Hy). by rewrite <- (holds_eta Ho).
Qed.

Lemma copy_assign_faithful (T : ty) (a u u' : den T) :
  faithful_assignments -> copy_assign T a u = (Ret tt, u') -> u' = a.
Proof.
  intros [Hassign _]. destruct T as [b | b]; simpl.
  - apply Hassign.
  - destruct a as [[x | ]], u as [[old | ]];
      unfold wrapper_copy_assign, mseq, lift; simpl; try done.
    destruct (plain_copy_assign b x old) as [r new_] eqn:Hpa.
    intros [= -> <-]. by rewrite (Hassign _ _ _ _ Hpa).
Qed.

(** What copy assignment leaves in [*this], in every case: the variant
    it was, or a variant that holds the alternative of [rhs]. *)
Lemma variant_copy_assign_cases (self rhs : variant) T (a : den T) :
  well_formed self -> holds rhs T a ->
  exists r self',
    variant_copy_assign rhs self = (r, self') /\
    (r = Ret tt ->
     which self' = which rhs /\
     exists a', storage self' = Holds T a' /\
       (which self = which rhs ->
        exists u, holds self T u /\ copy_assign T a u = (Ret tt, a')) /\
       (which self <> which rhs ->
        exists tmp, copy_construct T a = Ret tmp /\
                    a' = fst (move_construct T tmp))) /\
    well_formed self'.
Proof.
  intros Hself Hr. pose proof Hr as [Hlook _].
  destruct (decide (which self = which rhs)) as [Heq | Hne].
  - destruct Hself as (U & u & Hs).
    pose proof (holds_type_unique Hs Hr Heq) as ->.
    rewrite (variant_copy_assign_same_tag Hs Hr Heq).
    destruct Hs as [Hlooks Hstos].
    destruct (copy_assign T a u) as [[[] | e | | ] u'] eqn:Hca;
      eexists _, _; (split; [ reflexivity | ]); (split; [ | ]);
      try done; try (by exists T, u').
    intros _. split; [ done | ]. exists u'. split; [ done | ].
    split; [ | done ]. intros _. by exists u.
  - rewrite (variant_copy_assign_other_tag Hself Hr Hne).
    destruct (copy_construct T a) as [tmp | e | | ] eqn:Hcc;
      eexists _, _; (split; [ reflexivity | ]); (split; [ | ]);
      try done; try (by eexists _, _).
    intros _. split; [ done | ]. eexists. split; [ done | ].
    split; [ done | ]. intros _. by exists tmp.
Qed.

(** Copy assignment keeps the invariant of the variant when it returns
    and when it throws, and when it returns, [*this] is [rhs], tag and
    value, for alternatives whose copies and assignments are faithful.
    Between different alternatives it returns whenever the copy of the
    source value does. *)
Theorem variant_copy_assign_exact (self rhs : variant) (T : ty) (a : den T) :
  faithful_copies -> faithful_assignments ->
  well_formed self -> holds rhs T a ->
  (forall self', variant_copy_assign rhs self = (Ret tt, self') ->
                 self' = rhs) /\
  (forall e self', variant_copy_assign rhs self = (Throw e, self') ->
                   well_formed self') /\
  (which self <> which rhs -> returns (copy_construct T a) = true ->
   fst (variant_copy_assign rhs self) = Ret tt).
Proof.
  intros Hfc Hfa Hself Hr.
  destruct (variant_copy_assign_cases Hself Hr)
    as (r & self1 & Hrun & Hret & Hwf).
  rewrite Hrun. split; [ | split ].
  - intros self' [= -> <-].
    destruct (Hret eq_refl) as (Htag & a' & Hsto & Hsame & Hdiff).
    assert (a' = a) as ->.
    { destruct (decide (which self = which rhs)) as [Heq | Hne].
      - destruct (Hsame Heq) as (u & _ & Hca).
        by apply (copy_assign_faithful _ _ _ Hfa Hca).
      - destruct (Hdiff Hne) as (tmp & Hcc & ->).
        rewrite (copy_construct_faithful _ _ Hfc Hcc).
        by apply move_construct_faithful. }
    rewrite (holds_eta Hr). destruct self1 as [s t]; simpl in *.
    unfold which, variant_which, expose in Htag; simpl in Htag.
    by subst.
  - by intros e self' [= _ <-].
  - intros Hne Hcopy. rewrite (variant_copy_assign_other_tag Hself Hr Hne) in Hrun.
    destruct (copy_construct T a); try done. by injection Hrun as <- _.
Qed.

(** A variant that holds a wrapper which was moved from. *)
Lemma variant_move_box (other : variant) (b : base)
    (w : recursive_wrapper (bden b)) :
  holds other (Wrapped b) w ->
  snd (variant_move other) = Variant (Holds (Wrapped b) (Box None)) (active other)
  /\ holds (snd (variant_move other)) (Wrapped b) (Box None).
Proof.
  intros Ho. rewrite (variant_move_holds Ho). simpl.
  split; [ done | ]. split; [ apply Ho | done ].
Qed.

(** After a move out of a boxed alternative, copy assignment to the
    donor from a variant of the same alternative dereferences the
    donor's null pointer: undefined behaviour, whatever the source
    holds. *)
Theorem copy_assign_to_moved_from_box (other rhs : variant) (b : base)
    (w w' : recursive_wrapper (bden b)) :
  holds other (Wrapped b) w ->
  holds rhs (Wrapped b) w' ->
  which rhs = which other ->
  fst (variant_copy_assign rhs (snd (variant_move other))) = Undefined.
Proof.
  intros Ho Hr Htag.
  destruct (variant_move_box Ho) as [Hdonor Hd]. rewrite Hdonor in *.
  rewrite (variant_copy_assign_same_tag Hd Hr) by (by simpl).
  simpl. unfold wrapper_copy_assign, mseq, lift.
  by destruct w' as [[x | ]].
Qed.

(** A move makes the destination what the source was, tag and value,
    for alternatives whose moves are faithful: by construction always,
    by assignment for the variants without a wrapped alternative, which
    are those that the assignment compiles for.  The donor keeps its
    tag and the invariant. *)
Theorem variant_move_exact (other : variant) (T : ty) (a : den T) :
  faithful_copies -> faithful_assignments ->
  holds other T a ->
  fst (variant_move other) = Ret other /\
  (forall self,
     well_formed self ->
     (forall b, Wrapped b ∉ Ts) ->
     exists donor,
       variant_move_assign self other = Some (Ret tt, (other, donor)) /\
       which donor = which other /\ well_formed donor).
Proof.
  intros Hfc Hfa Ho. split.
  - rewrite (variant_move_holds Ho); simpl.
    rewrite (move_construct_faithful T a Hfc). by rewrite <- (holds_eta Ho).
  - intros self Hself Hnone.
    destruct (decide (which self = which other)) as [Heq | Hne].
    + destruct Hself as (U & u & Hs).
      pose proof (holds_type_unique Hs Ho Heq) as ->.
      destruct (variant_move_assign_same_tag Hnone Hs Ho Heq)
        as (b & -> & ->). simpl.
      destruct Hfa as [_ Hmove]. rewrite (Hmove b u a).
      eexists. split; [ by rewrite <- (holds_eta Ho) | ].
      split; [ done | ]. eexists (Plain b), _. split; [ apply Ho | done ].
    + rewrite (variant_move_assign_other_tag Hnone Hself Ho Hne).
      rewrite (move_construct_faithful T a Hfc).
      eexists. split; [ by rewrite <- (holds_eta Ho) | ].
      split; [ done | ]. eexists T, _. split; [ apply Ho | done ].
Qed.



End LifecycleFacts.

(** ** More of the dispatch and of the accessors *)

Section AccessFacts.
Context `{Alternatives} {inst : Instantiation}.






(** On a usable variant [is<U>] is true for exactly one type [U]: the
    type of the active alternative, without its wrapper; [get<U>] is
    non-null for that type and null for every other. *)
Theorem is_exactly_the_active_type (v : variant) (T : ty) (x : den T)
    (U : ty) :
  holds v T x -> engaged x ->
  is_ U v = Ret (bool_decide (U = Plain (unwrapped T))) /\
  (get U v = Ret None <-> U <> Plain (unwrapped T)).
Proof.
  intros Hv Hx.
  assert (Hp : exists y, presents v (existT (Plain (unwrapped T)) (Live y))).
  { destruct T as [b | b]; simpl.
    - exists x. left. by eauto.
    - destruct x as [[y | ]]; [ | done ]. exists y. right. by eauto. }
  destruct Hp as [y Hp]. unfold is_.
  destruct (decide (U = Plain (unwrapped T))) as [-> | Hne].
  - rewrite (get_presents_same Hp), bool_decide_true by done. simpl.
    split; [ done | ]. split; [ done | by intros ? ].
  - rewrite (get_presents_other Hp Hne), bool_decide_false by done.
    by simpl.
Qed.

(** Default construction is [make] at the first tag, behind a
    [noexcept] boundary, when the first alternative is a plain type:
    the new variant holds a default-constructed first alternative under
    tag 0. *)
Theorem default_is_make_first (b : base) :
  Ts !! 0 = Some (Plain b) ->
  variant_default = Some (noexcept (make 0)) /\
  (forall d, plain_default b = Ret d ->
             variant_default
             = Some (inl (Ret (Variant (Holds (Plain b) (fst (plain_move b d)))
                                       0)))).
Proof.
  intros Hlook.
  assert (Hmake : make 0
                  = let? x := default_construct (Plain b) in
                    constructed (construct_move (Plain b) x Raw) 0).
  { unfold make, factory_ctor.
    erewrite visit_impl_in_range by exact Hlook.
    unfold invoke, default_ctor, constructed, construct_move, mseq, lift,
      put_state, mpure; simpl.
    destruct (plain_default b) as [d | | | ]; simpl; try done.
    by destruct (plain_move b d). }
  unfold variant_default.
  destruct Ts as [ | front rest ]; [ done | ].
  injection Hlook as ->. rewrite Hmake. split; [ done | ].
  intros d Hd. simpl. rewrite Hd. simpl.
  unfold constructed, construct_move, mseq, put_state, mpure.
  change (move_construct (Plain b) d) with (plain_move b d).
  by destruct (plain_move b d).
Qed.

(** [==] on usable variants is reflexive, symmetric and transitive when
    [==] of every alternative is. *)
Theorem variant_eq_equivalence (x y z : variant) :
  usable x -> usable y -> usable z ->
  (forall T, T ∈ Ts -> eq_equivalence (unwrapped T)) ->
  variant_eq x x = Ret true /\
  variant_eq x y = variant_eq y x /\
  (variant_eq x y = Ret true -> variant_eq y z = Ret true ->
   variant_eq x z = Ret true).
Proof.
  intros (Tx & a & Hx & Ha) (Ty & b & Hy & Hb) (Tz & c & Hz & Hc) Heqv.
  destruct (engaged_payload _ _ Ha) as [u Hu].
  destruct (engaged_payload _ _ Hb) as [v Hv].
  destruct (engaged_payload _ _ Hc) as [w Hw].
  split; [ | split ].
  - rewrite (variant_eq_same_tag Hx Hx eq_refl), (op_eq_payload Tx a a Hu Hu).
    destruct (Heqv Tx (holds_declared Hx)) as (Hrefl & _). by rewrite Hrefl.
  - destruct (decide (which x = which y)) as [Htag | Hne].
    + pose proof (holds_type_unique Hx Hy Htag) as ->.
      rewrite (variant_eq_same_tag Hx Hy Htag), (op_eq_payload Ty a b Hu Hv).
      rewrite (variant_eq_same_tag Hy Hx (eq_sym Htag)),
        (op_eq_payload Ty b a Hv Hu).
      destruct (Heqv Ty (holds_declared Hy)) as (_ & Hsym & _).
      by rewrite Hsym.
    + by rewrite !variant_eq_other_tag.
  - destruct (decide (which x = which y)) as [Hxy | Hxy];
      [ | by rewrite (variant_eq_other_tag x y) ].
    destruct (decide (which y = which z)) as [Hyz | Hyz];
      [ | by rewrite (variant_eq_other_tag y z) ].
    pose proof (holds_type_unique Hx Hy Hxy) as ->.
    pose proof (holds_type_unique Hy Hz Hyz) as ->.
    rewrite (variant_eq_same_tag Hx Hy Hxy), (op_eq_payload Tz a b Hu Hv).
    rewrite (variant_eq_same_tag Hy Hz Hyz), (op_eq_payload Tz b c Hv Hw).
    rewrite (variant_eq_same_tag Hx Hz (eq_trans Hxy Hyz)),
      (op_eq_payload Tz a c Hu Hw).
    destruct (Heqv Tz (holds_declared Hz)) as (_ & _ & Htrans).
    intros [= Huv] [= Hvw]. by rewrite (Htrans _ _ _ Huv Hvw).
Qed.

End AccessFacts.

(** ** More of the construction from a value *)

Section ConversionFacts.
Context `{Alternatives} {inst : Instantiation}.

(** A value whose type is an alternative always constructs a variant,
    however often the type is declared and whatever else it converts
    to: the call compiles, the alternative is the one of that type and
    the tag is the index of its first declaration. *)
Theorem exact_type_always_compiles (T : ty) (vc : value_category)
    (t : den T) :
  T ∈ Ts ->
  exists i,
    declared_at T i /\
    variant_from_value T vc t
    = Some (let? y := construct_value T vc t in Ret (Variant (Holds T y) i)).
Proof.
  intros Hin. destruct (declared_at_exists Hin) as [i Hi].
  exists i. split; [ done | ]. by apply variant_from_alternative.
Qed.

Lemma convert_into_box (b : base) (vc : value_category) (x : bden b) :
  convert (Plain b) (Wrapped b) vc x
  = let? y := construct_value (Plain b) vc x in Ret (Box (Some y)).
Proof.
  unfold convert.
  destruct (decide (b = b)) as [e | Hne]; [ | done ].
  rewrite (proof_irrel e eq_refl). by destruct vc.
Qed.

(** A plain value goes into a variant whose only alternative it
    converts to is the wrapper of its type, through the wrapper's
    converting constructor, and comes out again: [get] for the plain
    type points to the value. *)
Theorem boxed_from_plain_value (b : base) (i : nat) (vc : value_category)
    (x : bden b) :
  faithful_copies ->
  declared_at (Wrapped b) i ->
  (forall U, U ∈ Ts -> U <> Wrapped b ->
             implicit_conversion (Plain b) U = None) ->
  returns (construct_value (Plain b) vc x) = true ->
  exists v,
    variant_from_value (Plain b) vc x = Some (Ret v) /\
    which v = i /\
    holds v (Wrapped b) (Box (Some x)) /\
    get (Plain b) v = Ret (Some (Live x)) /\
    is_ (Plain b) v = Ret true.
Proof.
  intros Hfc Hdecl Honly Hret.
  assert (Hsel : overload_resolution (Plain b) (initializer 0 Ts)
                 = Some (Wrapped b, i)).
  { apply selected_overload. split; [ done | ].
    exists (S (rank_index UserDefined)). split.
    - simpl. unfold is_convertible. by rewrite bool_decide_true.
    - intros U cost' Hin Hne Hconv. by rewrite (Honly U Hin Hne) in Hconv. }
  rewrite (variant_from_value_selected (Plain b) vc x Hsel).
  unfold initial_value.
  destruct (decide (Plain b = Wrapped b)) as [Heq | _]; [ done | ].
  rewrite convert_into_box.
  destruct (construct_value (Plain b) vc x) as [y | | | ] eqn:Hy; try done.
  pose proof (construct_value_faithful (Plain b) vc x Hfc Hy) as ->.
  simpl. eexists. split; [ reflexivity | ]. split; [ done | ].
  assert (Hv : holds (Variant (Holds (Wrapped b) (Box (Some x))) i)
                 (Wrapped b) (Box (Some x)))
    by (split; [ apply Hdecl | done ]).
  split; [ done | ].
  assert (Hp : presents (Variant (Holds (Wrapped b) (Box (Some x))) i)
                 (existT (Plain b) (Live x))) by (right; by eauto).
  unfold is_. by rewrite (get_presents_same Hp).
Qed.

End ConversionFacts.

(** ** More of the wrapper on the heap *)

Section HeapValueFacts.
Context {E T : Type}.
Context (T_copy : T -> outcome E T).
Context (T_assign : T -> M E T unit).

Local Abbreviation heap := (gmap positive T).
Local Abbreviation wrapper := OnHeap.recursive_wrapper.

(** Constructing a wrapper from a value allocates one location, which
    holds the copy that [T]'s constructor made and which [get()] reads
    back, and leaves every other allocation as it was; when [T]'s
    constructor throws, the exception is the outcome and the heap is
    what it was: nothing stays allocated. *)
Theorem value_ctor_round_trip (h : heap) (u : T) :
  (forall y, T_copy u = Ret y ->
     exists w h',
       OnHeap.value_ctor T_copy u h = (Ret w, h') /\
       OnHeap.owns_fresh h w /\
       OnHeap.get (E := E) w h' = (Ret y, h') /\
       forall l x, h !! l = Some x -> h' !! l = Some x) /\
  (forall e, T_copy u = Throw e ->
     OnHeap.value_ctor T_copy u h = (Throw e, h)).
Proof.
  split.
  - intros y Hy. set (l' := fresh (dom h)).
    assert (Hfresh : h !! l' = None) by apply fresh_not_allocated.
    exists (OnHeap.Wrapper (Some l')), (<[l' := y]> h). split.
    { unfold OnHeap.value_ctor, OnHeap.new, mseq, lift, mpure.
      by rewrite Hy. }
    split; [ by exists l' | ]. split.
    + eapply get_allocated; [ done | apply lookup_insert_eq ].
    + intros l x Hl. rewrite lookup_insert_ne; [ done | congruence ].
  - intros e He. unfold OnHeap.value_ctor, mseq, lift. by rewrite He.
Qed.

(** Assigning a value to a wrapper runs [T]'s assignment on the value
    the wrapper owns, in the allocation it owns: nothing is allocated or
    freed and no other allocation changes, also when [T]'s assignment
    throws.  On a wrapper that was moved from it dereferences the null
    pointer. *)
Theorem value_assign_in_place (h : heap) (self : wrapper) (rhs : T) :
  (OnHeap.item self = None ->
   OnHeap.value_assign T_assign self rhs h = (Undefined, h)) /\
  (forall l old r y,
     OnHeap.item self = Some l -> h !! l = Some old ->
     T_assign rhs old = (r, y) ->
     exists h',
       OnHeap.value_assign T_assign self rhs h
       = (match r with
          | Ret _ => Ret self
          | Throw e => Throw e
          | AssertFail => AssertFail
          | Undefined => Undefined
          end, h') /\
       dom h' = dom h /\
       OnHeap.get (E := E) self h' = (Ret y, h') /\
       forall k, k <> l -> h' !! k = h !! k).
Proof.
  split.
  - intros Hnull. unfold OnHeap.value_assign, OnHeap.assign, mseq.
    by rewrite Hnull.
  - intros l old r y Hself Hl Hy. exists (<[l := y]> h). split.
    { unfold OnHeap.value_assign, OnHeap.assign, mseq, mpure.
      rewrite Hself, Hl, Hy. by destruct r. }
    split; [ by apply dom_insert_lookup_L | ]. split.
    + eapply get_allocated; [ done | apply lookup_insert_eq ].
    + intros k Hk. by rewrite lookup_insert_ne.
Qed.

End HeapValueFacts.

(** ** The scenario *)

Module ScenarioFacts.
Import Scenario.

Local Open Scope Z_scope.

Lemma scenario_faithful_copies : faithful_copies.
Proof.
  split.
  - intros k x y. destruct k; simpl; try (by intros [= <-]).
    + destruct (capacity <? String.length x)%nat; [ done | by intros [= <-] ].
    + destruct (capacity <? length x)%nat; [ done | by intros [= <-] ].
  - by intros k x.
Qed.

Lemma Z_strict_total_order (k : kind) :
  k = KInt \/ k = KLong -> strict_total_order k.
Proof.
  intros [-> | ->]; (split; [ | split ]); simpl.
  all: try (intros x; apply Z.ltb_irrefl).
  all: try (intros x y z Hxy%Z.ltb_lt Hyz%Z.ltb_lt; apply Z.ltb_lt; lia).
  all: intros x y; rewrite Z.eqb_eq, !Z.ltb_ge; lia.
Qed.

(** C1 at [variant<size_t, bool, int, std::string>(42)]. *)
Lemma construct_then_get_witness :
  exists v,
    variant_from_value (inst := bool_int_text) Int LValue 42
    = Some (Ret v) /\
    which v = 1%nat /\
    is_ (inst := bool_int_text) Int v = Ret true /\
    get (inst := bool_int_text) Int v = Ret (Some (Live 42)) /\
    get (inst := bool_int_text) Bool v = Ret None.
Proof.
  destruct (construct_then_get (inst := bool_int_text) (T := Int)
              (i := 1%nat) LValue 42 scenario_faithful_copies)
    as [(v & Hv & Hwhich & _ & His & Hget & Hother) _].
  - split; [ reflexivity | ].
    intros [ | [ | j]] Hj; simpl; [ discriminate | lia | lia ].
  - reflexivity.
  - exists v. repeat split; try assumption.
    apply Hother. discriminate.
Defined.

(** C1 as stated fails for a boxed alternative: a variant constructed
    from a [recursive_wrapper<node>] does not answer for that type. *)
Lemma boxed_alternative_is_not_gettable :
  variant_from_value (inst := bool_int_node) BoxedNode LValue
    (Box (Some [1; 2]))
  = Some (Ret boxed_node) /\
  declared_at (inst := bool_int_node) BoxedNode 2 /\
  which boxed_node = 2%nat /\
  is_ (inst := bool_int_node) BoxedNode boxed_node = Ret false /\
  get (inst := bool_int_node) BoxedNode boxed_node = Ret None /\
  get (inst := bool_int_node) (Plain KNode) boxed_node
  = Ret (Some (Live [1; 2])).
Proof.
  split; [ reflexivity | ]. split.
  - split; [ reflexivity | ].
    intros [ | [ | j]] Hj; simpl; [ discriminate | discriminate | lia ].
  - repeat split; reflexivity.
Qed.

(** C2 at two variants that both hold the Int 42. *)
Lemma variant_eq_iff_witness :
  variant_eq (inst := bool_int_text) int_42 int_42 = Ret true.
Proof.
  assert (Hh : holds (inst := bool_int_text) int_42 Int 42)
    by (split; reflexivity).
  assert (Hwf : well_formed (inst := bool_int_text) int_42)
    by (exists Int, 42; exact Hh).
  apply (variant_eq_iff (inst := bool_int_text) (x := int_42) (y := int_42)
           Hwf Hwf).
  split; [ reflexivity | ].
  exists Int, 42, 42. repeat split.
Defined.

(** C3 at Long 5 < Int 3 < Int 7 in [variant<size_t, long, int>]. *)
Lemma variant_lt_total_order_witness :
  variant_lt (inst := long_int) long_5 int_3 = Ret true /\
  variant_lt (inst := long_int) int_3 int_7 = Ret true /\
  variant_lt (inst := long_int) long_5 int_7 = Ret true.
Proof.
  assert (H5 : usable (inst := long_int) long_5)
    by (exists Long, 5; repeat split).
  assert (H3 : usable (inst := long_int) int_3)
    by (exists Int, 3; repeat split).
  assert (H7 : usable (inst := long_int) int_7)
    by (exists Int, 7; repeat split).
  destruct (variant_lt_total_order (inst := long_int) long_5 int_3 int_7)
    as (_ & _ & _ & Horder).
  destruct (Horder H5 H3 H7) as (_ & Htrans & _).
  - intros T HT. apply Z_strict_total_order.
    apply elem_of_cons in HT as [-> | HT]; [ by right | ].
    apply elem_of_cons in HT as [-> | HT]; [ by left | ].
    by apply elem_of_nil in HT.
  - split; [ reflexivity | ]. split; [ reflexivity | ].
    apply Htrans; reflexivity.
Defined.

(** C4 at an Int assigned from a Text whose copy runs out of memory. *)
Lemma copy_assign_failure_atomic_witness :
  variant_copy_assign (inst := bool_int_text) text_long int_3
  = (Throw bad_alloc, int_3).
Proof.
  apply (copy_assign_failure_atomic (inst := bool_int_text) int_3
           (rhs := text_long) (T := Text) (a := "123456789"%string)).
  - split; reflexivity.
  - vm_compute. lia.
  - reflexivity.
Defined.

(** C5 as stated fails: with [variant<size_t, long, int>] an [int]
    converts to the first alternative, Long, but the variant that is
    constructed holds the second, Int, which matches exactly. *)
Lemma first_convertible_is_not_selected :
  spec_first_convertible (inst := long_int) Int = Some 0%nat /\
  variant_from_value (inst := long_int) Int LValue 42
  = Some (Ret int_42) /\
  which int_42 = 1%nat.
Proof. repeat split; reflexivity. Qed.

(** An [int] reaches Long and Bool at the same rank: the construction
    of [variant<size_t, long, bool>] from it does not compile. *)
Example ambiguous_construction_rejected :
  variant_from_value (inst := long_bool) Int LValue 42 = None.
Proof. reflexivity. Qed.

(** A Text converts to no alternative of [variant<size_t, long, bool>]. *)
Example inconvertible_construction_rejected :
  variant_from_value (inst := long_bool) Text LValue "hi"%string
  = None.
Proof. reflexivity. Qed.

(** C6: [make] at the tag of a boxed alternative dereferences the
    wrapper in the raw storage. *)
Theorem make_boxed_alternative :
  Ts (Instantiation := bool_int_node) !! 2%nat = Some BoxedNode /\
  make (inst := bool_int_node) 2 = Undefined.
Proof. split; reflexivity. Qed.

(** [make] at the tags of the plain alternatives, and out of range. *)
Example make_in_range :
  make (inst := bool_int_text) 0 = Ret (Variant (Holds Bool false) 0) /\
  make (inst := bool_int_text) 1 = Ret (Variant (Holds Int 0) 1) /\
  make (inst := bool_int_text) 2
  = Ret (Variant (Holds Text ""%string) 2) /\
  make (inst := bool_int_text) 3 = AssertFail.
Proof. repeat split; reflexivity. Qed.

Lemma scenario_hash_respects_eq (k : kind) : hash_respects_eq k.
Proof.
  intros x y. destruct k; simpl.
  - by intros ->%Bool.eqb_prop.
  - by intros ->%Z.eqb_eq.
  - by intros ->%Z.eqb_eq.
  - by intros ->%String.eqb_eq.
  - by intros ->%bool_decide_eq_true.
Qed.

(** C7 at two equal variants that hold the Int 42. *)
Lemma hash_of_active_value_witness :
  exists h,
    hash (inst := bool_int_text) int_42 = Ret h /\
    hash (inst := bool_int_text) (Variant (Holds Int 42) 1) = Ret h.
Proof.
  assert (Hwf : well_formed (inst := bool_int_text) int_42)
    by (exists Int, 42; split; reflexivity).
  destruct (hash_of_active_value (inst := bool_int_text))
    as (_ & _ & Hequal).
  apply (Hequal (fun T _ => scenario_hash_respects_eq (unwrapped T))
           int_42 int_42 Hwf Hwf).
  reflexivity.
Defined.

(** C8 at a Bool and a Text. *)
Lemma visit_receives_active_values_witness :
  visit (inst := bool_int_text) kinds_of bool_true [text_hi] tt
  = (Ret [KBool; KText], tt).
Proof.
  assert (Hp : presents (inst := bool_int_text) bool_true
                 (existT Bool (Live true))).
  { unfold presents. left. exists KBool, true. repeat split. }
  assert (Hps : Forall2 (presents (inst := bool_int_text)) [text_hi]
                  [existT Text (Live "hi"%string)]).
  { constructor; [ | constructor ].
    unfold presents. left. exists KText, "hi"%string. repeat split. }
  destruct (visit_receives_active_values (inst := bool_int_text) kinds_of
              Hp Hps)
    as (Hvisit & _).
  rewrite Hvisit. reflexivity.
Defined.

(** Each of the nine ordered pairs of active alternatives reaches the
    visitor as that pair of types. *)
Example nine_pairs :
  (x ← all_three; y ← all_three;
   [fst (visit (inst := bool_int_text) kinds_of x [y] tt)])
  = [Ret [KBool; KBool]; Ret [KBool; KInt]; Ret [KBool; KText];
     Ret [KInt; KBool]; Ret [KInt; KInt]; Ret [KInt; KText];
     Ret [KText; KBool]; Ret [KText; KInt]; Ret [KText; KText]].
Proof. reflexivity. Qed.

(** C9 at the copy construction of a box that holds 5. *)
Lemma wrapper_copy_is_deep_witness :
  exists copy h',
    OnHeap.copy_ctor int_copy box_1 two_boxes = (Ret copy, h') /\
    OnHeap.owns_fresh two_boxes copy /\
    OnHeap.get (E := exception) copy h' = (Ret 5, h') /\
    OnHeap.get (E := exception) box_1 h' = (Ret 5, h').
Proof.
  destruct (wrapper_copy_is_deep int_copy int_assign Z.eqb
              two_boxes box_1 (l := 1%positive) (x := 5)) as [Hctor _].
  - reflexivity.
  - reflexivity.
  - intros a b [= <-]. apply Z.eqb_refl.
  - intros a old b [= <-]. apply Z.eqb_refl.
  - destruct (Hctor 5 eq_refl)
      as (copy & h' & Hc & Hfresh & _ & Hget & Hsrc & _).
    exists copy, h'. repeat split; assumption.
Defined.

(** C9 as stated fails for copy assignment: the destination ends up
    with the value of the source in the allocation it already owned;
    nothing is allocated. *)
Lemma copy_assign_reuses_allocation :
  exists h',
    OnHeap.copy_assign int_assign box_2 box_1 two_boxes = (Ret box_2, h') /\
    OnHeap.get (E := exception) box_2 h' = (Ret 5, h') /\
    dom h' = dom two_boxes /\
    ~ OnHeap.owns_fresh two_boxes box_2.
Proof.
  exists (<[2%positive := 5]> two_boxes).
  split; [ reflexivity | ]. split; [ reflexivity | ]. split.
  - apply dom_insert_lookup_L. by exists 7.
  - intros (l & [= <-] & Hnone). discriminate Hnone.
Qed.

Lemma bool_int_text_all_plain (b : kind) :
  Wrapped b ∉ Ts (Instantiation := bool_int_text).
Proof.
  exact (proj1 (move_assign_compiles (inst := bool_int_text)) eq_refl b).
Qed.

(** C10 at a boxed node: the move construction leaves the donor its
    tag, and the move assignment is rejected. *)
Lemma move_keeps_source_tag_witness :
  (exists self' other',
     variant_move (inst := bool_int_node) boxed_node = (Ret self', other') /\
     which other' = which boxed_node /\
     holds (inst := bool_int_node) other' BoxedNode (Box None)) /\
  variant_move_assign (inst := bool_int_node) int_3 boxed_node = None.
Proof.
  destruct (move_keeps_source_tag (inst := bool_int_node)
              (other := boxed_node) (T := BoxedNode) (a := Box (Some [1; 2])))
    as ((self' & other' & Hmove & Htag & Hdonor & _) & _ & Hrejected).
  - split; reflexivity.
  - split.
    + exists self', other'. repeat split; assumption || apply Hdonor.
    + apply (Hrejected int_3 KNode).
      apply (list_elem_of_lookup_2 _ 2%nat). reflexivity.
Defined.

(** Move assignment in [variant<size_t, bool, int, std::string>], from
    a Text to an Int and between two Ints: the donor keeps its tag and
    holds what the move left. *)
Example move_assign_plain :
  variant_move_assign (inst := bool_int_text) int_3 text_hi
  = Some (Ret tt, (text_hi, Variant (Holds Text ""%string) 2)) /\
  variant_move_assign (inst := bool_int_text) int_3 int_42
  = Some (Ret tt, (int_42, int_42)).
Proof. split; reflexivity. Qed.

(** *** The further facts at the scenario *)

Lemma scenario_faithful_assignments : faithful_assignments.
Proof.
  split.
  - intros k x old y. simpl.
    destruct (copy_of k x) as [c | | | ] eqn:Hc; try done.
    intros [= <-]. destruct scenario_faithful_copies as [Hcopy _].
    by apply (Hcopy k x).
  - by intros k self rhs.
Qed.

Lemma scenario_eq_equivalence (k : kind) : eq_equivalence k.
Proof.
  split; [ | split ]; destruct k; simpl.
  - by intros [].
  - apply Z.eqb_refl.
  - apply Z.eqb_refl.
  - apply String.eqb_refl.
  - intros x. by apply bool_decide_eq_true.
  - by intros [] [].
  - apply Z.eqb_sym.
  - apply Z.eqb_sym.
  - apply String.eqb_sym.
  - intros x y. by apply bool_decide_ext.
  - by intros [] [] [].
  - intros x y z ->%Z.eqb_eq ->%Z.eqb_eq. apply Z.eqb_refl.
  - intros x y z ->%Z.eqb_eq ->%Z.eqb_eq. apply Z.eqb_refl.
  - intros x y z ->%String.eqb_eq ->%String.eqb_eq. apply String.eqb_refl.
  - intros x y z ->%bool_decide_eq_true ->%bool_decide_eq_true.
    by apply bool_decide_eq_true.
Qed.

(** The copy of a Text is the Text. *)
Lemma variant_copy_exact_witness :
  variant_copy (inst := bool_int_text) text_hi = Ret text_hi.
Proof.
  apply (variant_copy_exact (inst := bool_int_text) (other := text_hi)
           (T := Text) (a := "hi"%string) scenario_faithful_copies).
  split; reflexivity.
Defined.

(** An Int that is assigned a Text is that Text. *)
Lemma variant_copy_assign_exact_witness :
  (forall self',
     variant_copy_assign (inst := bool_int_text) text_hi int_3
     = (Ret tt, self') -> self' = text_hi) /\
  fst (variant_copy_assign (inst := bool_int_text) text_hi int_3) = Ret tt.
Proof.
  destruct (variant_copy_assign_exact (inst := bool_int_text)
              (self := int_3) (rhs := text_hi) (T := Text)
              (a := "hi"%string)
              scenario_faithful_copies scenario_faithful_assignments)
    as (Hexact & _ & Hreturns).
  - exists Int, 3. split; reflexivity.
  - split; reflexivity.
  - split; [ exact Hexact | ].
    apply Hreturns; [ vm_compute; lia | reflexivity ].
Defined.

(** A boxed node that was moved from cannot be assigned another boxed
    node. *)
Lemma copy_assign_to_moved_from_box_witness :
  fst (variant_copy_assign (inst := bool_int_node) boxed_node_3
         (snd (variant_move (inst := bool_int_node) boxed_node)))
  = Undefined.
Proof.
  apply (copy_assign_to_moved_from_box (inst := bool_int_node)
           (other := boxed_node) (rhs := boxed_node_3) (b := KNode)
           (w := Box (Some [1; 2])) (w' := Box (Some [3]))).
  - split; reflexivity.
  - split; reflexivity.
  - reflexivity.
Defined.

(** Moving a Text, into a new variant and into an Int. *)
Lemma variant_move_exact_witness :
  fst (variant_move (inst := bool_int_text) text_hi) = Ret text_hi /\
  exists donor,
    variant_move_assign (inst := bool_int_text) int_3 text_hi
    = Some (Ret tt, (text_hi, donor)) /\
    which donor = 2%nat.
Proof.
  destruct (variant_move_exact (inst := bool_int_text)
              (other := text_hi) (T := Text) (a := "hi"%string)
              scenario_faithful_copies scenario_faithful_assignments)
    as [Hctor Hassign].
  - split; reflexivity.
  - split; [ exact Hctor | ].
    destruct (Hassign int_3) as (donor & Hrun & Htag & _).
    + exists Int, 3. split; reflexivity.
    + exact bool_int_text_all_plain.
    + by exists donor.
Defined.




(** A boxed node is a node, and nothing else. *)
Lemma is_exactly_the_active_type_witness :
  is_ (inst := bool_int_node) (Plain KNode) boxed_node = Ret true /\
  is_ (inst := bool_int_node) BoxedNode boxed_node = Ret false /\
  is_ (inst := bool_int_node) Int boxed_node = Ret false.
Proof.
  assert (Hholds : holds (inst := bool_int_node) boxed_node BoxedNode
                     (Box (Some [1; 2])))
    by (split; reflexivity).
  assert (Hengaged : engaged (T := BoxedNode) (Box (Some [1; 2])))
    by (simpl; discriminate).
  split; [ | split ].
  - exact (proj1 (is_exactly_the_active_type (inst := bool_int_node)
                    (Plain KNode) Hholds Hengaged)).
  - exact (proj1 (is_exactly_the_active_type (inst := bool_int_node)
                    BoxedNode Hholds Hengaged)).
  - exact (proj1 (is_exactly_the_active_type (inst := bool_int_node)
                    Int Hholds Hengaged)).
Defined.

(** [variant<size_t, bool, int, std::string>()] holds [false]. *)
Lemma default_is_make_first_witness :
  variant_default (inst := bool_int_text)
  = Some (inl (Ret (Variant (Holds Bool false) 0))).
Proof.
  destruct (default_is_make_first (inst := bool_int_text) (b := KBool))
    as [_ Hvalue].
  - reflexivity.
  - exact (Hvalue false eq_refl).
Defined.

(** [==] between an Int and a Text, either way round. *)
Lemma variant_eq_equivalence_witness :
  variant_eq (inst := bool_int_text) int_3 text_hi
  = variant_eq (inst := bool_int_text) text_hi int_3.
Proof.
  destruct (variant_eq_equivalence (inst := bool_int_text)
              (x := int_3) (y := text_hi) (z := int_42))
    as (_ & Hsym & _).
  - exists Int, 3. repeat split.
  - exists Text, "hi"%string. repeat split.
  - exists Int, 42. repeat split.
  - intros T _. apply scenario_eq_equivalence.
  - exact Hsym.
Defined.

(** An Int constructs [variant<size_t, bool, int, std::string>]. *)
Lemma exact_type_always_compiles_witness :
  exists i,
    declared_at (inst := bool_int_text) Int i /\
    variant_from_value (inst := bool_int_text) Int LValue 42
    = Some (Ret (Variant (Holds Int 42) i)).
Proof.
  refine (exact_type_always_compiles (inst := bool_int_text) (T := Int)
            LValue 42 _).
  apply (list_elem_of_lookup_2 _ 1%nat). reflexivity.
Defined.

(** A node constructs [variant<size_t, bool, int,
    detail::recursive_wrapper<node>>], and is read back. *)
Lemma boxed_from_plain_value_witness :
  exists v,
    variant_from_value (inst := bool_int_node) (Plain KNode) LValue [1; 2]
    = Some (Ret v) /\
    which v = 2%nat /\
    get (inst := bool_int_node) (Plain KNode) v = Ret (Some (Live [1; 2])).
Proof.
  destruct (boxed_from_plain_value (inst := bool_int_node) (b := KNode)
              (i := 2%nat) LValue [1; 2] scenario_faithful_copies)
    as (v & Hv & Htag & _ & Hget & _).
  - split; [ reflexivity | ].
    intros [ | [ | j]] Hj; simpl; [ discriminate | discriminate | lia ].
  - intros U HU Hne.
    apply elem_of_cons in HU as [-> | HU]; [ reflexivity | ].
    apply elem_of_cons in HU as [-> | HU]; [ reflexivity | ].
    apply elem_of_cons in HU as [-> | HU]; [ done | ].
    by apply elem_of_nil in HU.
  - reflexivity.
  - by exists v.
Defined.

(** A box for 9 beside the two boxes. *)
Lemma value_ctor_round_trip_witness :
  exists w h',
    OnHeap.value_ctor int_copy 9 two_boxes = (Ret w, h') /\
    OnHeap.get (E := exception) w h' = (Ret 9, h') /\
    h' !! 1%positive = Some 5.
Proof.
  destruct (value_ctor_round_trip int_copy two_boxes 9) as [Hnew _].
  destruct (Hnew 9 eq_refl) as (w & h' & Hrun & _ & Hget & Hframe).
  exists w, h'. split; [ exact Hrun | ]. split; [ exact Hget | ].
  by apply Hframe.
Defined.

(** 9 assigned to the first box, and to a box that was moved from. *)
Lemma value_assign_in_place_witness :
  OnHeap.value_assign int_assign box_null 9 two_boxes
  = (Undefined, two_boxes) /\
  exists h',
    OnHeap.value_assign int_assign box_1 9 two_boxes = (Ret box_1, h') /\
    dom h' = dom two_boxes /\
    h' !! 2%positive = Some 7.
Proof.
  destruct (value_assign_in_place int_assign two_boxes box_1 9)
    as [_ Hlive].
  destruct (value_assign_in_place int_assign two_boxes box_null 9)
    as [Hnull _].
  split; [ by apply Hnull | ].
  destruct (Hlive 1%positive 5 (Ret tt) 9 eq_refl eq_refl eq_refl)
    as (h' & Hrun & Hdom & _ & Hframe).
  exists h'. split; [ exact Hrun | ]. split; [ exact Hdom | ].
  by rewrite Hframe.
Defined.

End ScenarioFacts.
